(** * Embedded cipher library: the split-shift / substitution transform

    A shallow embedding of [src/cipher.c] (with the constants and the status
    enumeration of [cipher.h]) and the properties of the transform engine:
    validation order, the rotation steps, the substitution table, the
    encrypt / decrypt pipeline and the case normaliser.

    Memory model.  A [char *] argument is either [NULL] or points at the
    first byte of a caller-owned array; the array is a [list ascii] holding
    ALL its bytes (the characters, the terminator, and whatever the caller
    has behind the terminator).  Every function returns in the [option]
    monad: [None] means the C code read or wrote outside the array, which is
    undefined behaviour.  C [int]s are [Z]; the lengths that reach the
    arithmetic are at most 10000, so no [int] operation wraps. *)

From Stdlib Require Import ZArith Ascii String Lia.
From stdpp Require Import base option numbers list strings.

Local Open Scope Z_scope.

(** ** cipher.h *)

Definition CIPHER_MAX_INPUT_LEN : Z := 10000.
Definition CIPHER_TABLE_SIZE : Z := 20.

Inductive cipher_status_t : Set :=
| CIPHER_SUCCESS
| CIPHER_ERROR_NULL_POINTER
| CIPHER_ERROR_INVALID_KEY
| CIPHER_ERROR_INVALID_LENGTH.

(** The enumerators' integer values. *)
Definition status_code (s : cipher_status_t) : Z :=
  match s with
  | CIPHER_SUCCESS => 0
  | CIPHER_ERROR_NULL_POINTER => -1
  | CIPHER_ERROR_INVALID_KEY => -2
  | CIPHER_ERROR_INVALID_LENGTH => -3
  end.

(** ** Buffers and pointers *)

Abbreviation buffer := (list ascii).

(** [None] is the null pointer. *)
Abbreviation char_ptr := (option buffer).

(** The terminator ['\0']. *)
Definition NUL : ascii := Ascii.zero.

(** [str[j]] as an rvalue. *)
Definition load (str : buffer) (j : Z) : option ascii :=
  if decide (0 ≤ j) then str !! Z.to_nat j else None.

(** [str[j] = c]. *)
Definition store (str : buffer) (j : Z) (c : ascii) : option buffer :=
  if decide (0 ≤ j < Z.of_nat (length str))
  then Some (<[Z.to_nat j := c]> str)
  else None.

(** [strlen]: scans for the terminator; running off the array is undefined. *)
Fixpoint strlen (str : buffer) : option Z :=
  match str with
  | [] => None
  | c :: rest =>
      if decide (c = NUL) then Some 0 else Z.succ <$> strlen rest
  end.

(** A C string literal as an array: the characters and the terminator. *)
Definition c_str (s : string) : buffer := list_ascii_of_string s ++ [NUL].

(** ** The substitution table *)

Definition SUBSTITUTION_TABLE : list (ascii * ascii) :=
  [ ("0", "B"); ("1", ";"); ("2", "C"); ("3", "D");
    ("4", ":"); ("5", "F"); ("6", "E"); ("7", "9");
    ("8", "3"); ("9", "8"); ("A", "2"); ("B", "4");
    ("C", ","); ("D", "0"); ("E", "="); ("F", "1");
    (":", "A"); (",", "7"); ("=", "5"); (";", "6") ]%char.

(** ** validate_arg *)

Definition validate_arg (str : char_ptr) (key : Z) : option cipher_status_t :=
  match str with
  | None => Some CIPHER_ERROR_NULL_POINTER
  | Some b =>
      if decide (key ≤ 0) then Some CIPHER_ERROR_INVALID_KEY
      else
        n ← strlen b;
        if decide (n > CIPHER_MAX_INPUT_LEN)
        then Some CIPHER_ERROR_INVALID_LENGTH
        else Some CIPHER_SUCCESS
  end.

(** ** The rotation steps *)

(** The loop body of [shift_left_once]:
    [temp = str[j + 1]; str[j + 1] = str[j]; str[j] = temp;] *)
Definition swap_next (str : buffer) (j : Z) : option buffer :=
  temp ← load str (j + 1);
  x ← load str j;
  str1 ← store str (j + 1) x;
  store str1 j temp.

(** The loop body of [shift_right_once]:
    [temp = str[j - 1]; str[j - 1] = str[j]; str[j] = temp;] *)
Definition swap_prev (str : buffer) (j : Z) : option buffer :=
  temp ← load str (j - 1);
  x ← load str j;
  str1 ← store str (j - 1) x;
  store str1 j temp.

(** [for (j = lo; ...; j++) body]: [n] iterations starting at [j]. *)
Fixpoint for_up (n : nat) (j : Z) (body : buffer → Z → option buffer)
    (str : buffer) : option buffer :=
  match n with
  | O => Some str
  | S n' => str' ← body str j; for_up n' (j + 1) body str'
  end.

(** [for (j = hi; ...; j--) body]: [n] iterations starting at [j]. *)
Fixpoint for_down (n : nat) (j : Z) (body : buffer → Z → option buffer)
    (str : buffer) : option buffer :=
  match n with
  | O => Some str
  | S n' => str' ← body str j; for_down n' (j - 1) body str'
  end.

(** [int mid = (len - 1) / 2;] C division truncates towards zero. *)
Definition midpoint (len : Z) : Z := Z.quot (len - 1) 2.

(** [for (j = 0; j < mid; j++)] runs [mid - 0] times,
    [for (j = mid + 1; j < len - 1; j++)] runs [(len - 1) - (mid + 1)] times
    (no time at all when the bound is not above the start). *)
Definition shift_left_once (str : buffer) (len : Z) : option buffer :=
  let mid := midpoint len in
  str1 ← for_up (Z.to_nat (mid - 0)) 0 swap_next str;
  for_up (Z.to_nat ((len - 1) - (mid + 1))) (mid + 1) swap_next str1.

(** [for (j = len - 1; j > mid; j--)] runs [(len - 1) - mid] times,
    [for (j = mid + 1; j > 0; j--)] runs [(mid + 1) - 0] times. *)
Definition shift_right_once (str : buffer) (len : Z) : option buffer :=
  let mid := midpoint len in
  str1 ← for_down (Z.to_nat ((len - 1) - mid)) (len - 1) swap_prev str;
  for_down (Z.to_nat ((mid + 1) - 0)) (mid + 1) swap_prev str1.

(** ** The substitution stage *)

(** The inner loop of the substitution functions at index [i],
    [for (a = 0; a < CIPHER_TABLE_SIZE; a++)
       if (TABLE[a][from] == str[i]) { str[i] = TABLE[a][to]; break; }]
    over the rows that are left. *)
Fixpoint substitute_at (from to : ascii * ascii → ascii)
    (rows : list (ascii * ascii)) (str : buffer) (i : Z) : option buffer :=
  match rows with
  | [] => Some str
  | row :: rows' =>
      c ← load str i;
      if decide (from row = c) then store str i (to row)
      else substitute_at from to rows' str i
  end.

(** [for (i = ...; i < len && str[i] != '\0'; i++) { inner loop }]:
    at most [n] iterations starting at [i]. *)
Fixpoint substitute_loop (from to : ascii * ascii → ascii) (n : nat) (i : Z)
    (str : buffer) : option buffer :=
  match n with
  | O => Some str
  | S n' =>
      c ← load str i;
      if decide (c = NUL) then Some str
      else
        str' ← substitute_at from to SUBSTITUTION_TABLE str i;
        substitute_loop from to n' (i + 1) str'
  end.

Definition substitute_forward (str : buffer) (len : Z) : option buffer :=
  substitute_loop fst snd (Z.to_nat (len - 0)) 0 str.

Definition substitute_reverse (str : buffer) (len : Z) : option buffer :=
  substitute_loop snd fst (Z.to_nat (len - 0)) 0 str.

(** ** The public operations *)

(** [for (i = 0; i < key; i++) step(str, len);] *)
Fixpoint repeat_step (n : nat) (step : buffer → Z → option buffer)
    (str : buffer) (len : Z) : option buffer :=
  match n with
  | O => Some str
  | S n' => str' ← step str len; repeat_step n' step str' len
  end.

(** The result of a call: the status and the array behind [str] afterwards. *)
Definition outcome : Type := cipher_status_t * char_ptr.

Definition cipher_encrypt (str : char_ptr) (key : Z) : option outcome :=
  status ← validate_arg str key;
  match status, str with
  | CIPHER_SUCCESS, Some b =>
      len ← strlen b;
      b1 ← repeat_step (Z.to_nat (key - 0)) shift_left_once b len;
      b2 ← substitute_forward b1 len;
      Some (CIPHER_SUCCESS, Some b2)
  | _, _ => Some (status, str)
  end.

Definition cipher_decrypt (str : char_ptr) (key : Z) : option outcome :=
  status ← validate_arg str key;
  match status, str with
  | CIPHER_SUCCESS, Some b =>
      len ← strlen b;
      b1 ← repeat_step (Z.to_nat (key - 0)) shift_right_once b len;
      b2 ← substitute_reverse b1 len;
      Some (CIPHER_SUCCESS, Some b2)
  | _, _ => Some (status, str)
  end.

(** [toupper] of the C locale on a byte: the letters [a]..[z] (97..122) go
    to [A]..[Z], every other byte is returned as it is. *)
Definition toupper (c : ascii) : ascii :=
  let n := N_of_ascii c in
  if decide (97 ≤ n ∧ n ≤ 122)%N then ascii_of_N (n - 32) else c.

(** [while ( *str != '\0') { *str = toupper( *str); str++; }]: the pointer
    walks down the array, so the recursion is on what is left of it. *)
Fixpoint to_uppercase_loop (str : buffer) : option buffer :=
  match str with
  | [] => None
  | c :: rest =>
      if decide (c = NUL) then Some str
      else (toupper c ::.) <$> to_uppercase_loop rest
  end.

Definition cipher_to_uppercase (str : char_ptr) : option char_ptr :=
  match str with
  | None => Some None
  | Some b => Some <$> to_uppercase_loop b
  end.

(** ** Vocabulary of the properties *)

(** Rotation of a whole list by one place: [segment[1:] + segment[0]]. *)
Definition rotate_left (l : buffer) : buffer :=
  match l with
  | [] => []
  | x :: l' => l' ++ [x]
  end.

(** Rotation the other way: [segment[-1] + segment[:-1]]. *)
Definition rotate_right (l : buffer) : buffer :=
  match rev l with
  | [] => []
  | z :: l' => z :: rev l'
  end.

(** [s1] and [s2] are the two stretches a rotation step of length [len]
    works on: the indices [0 .. mid] and [mid + 1 .. len - 1]. *)
Definition halves (len : Z) (s1 s2 : buffer) : Prop :=
  1 ≤ len ∧
  Z.of_nat (length s1) = midpoint len + 1 ∧
  Z.of_nat (length s2) = len - 1 - midpoint len.

(** The characters of a string: none of them is the terminator. *)
Definition text (body : buffer) : Prop := Forall (λ c, c ≠ NUL) body.

(** What a scan of the table rows makes of one character: the first row
    whose [from] column equals it decides; without a match it stays. *)
Fixpoint table_scan (from to : ascii * ascii → ascii)
    (rows : list (ascii * ascii)) (c : ascii) : ascii :=
  match rows with
  | [] => c
  | row :: rows' =>
      if decide (from row = c) then to row else table_scan from to rows' c
  end.

Definition forward_char : ascii → ascii := table_scan fst snd SUBSTITUTION_TABLE.
Definition reverse_char : ascii → ascii := table_scan snd fst SUBSTITUTION_TABLE.

(** The string an array holds: its characters up to the first terminator. *)
Fixpoint c_string (str : buffer) : list ascii :=
  match str with
  | [] => []
  | c :: rest => if decide (c = NUL) then [] else c :: c_string rest
  end.

(** The two columns of the table. *)
Definition plaintext_side : list ascii := fst <$> SUBSTITUTION_TABLE.
Definition ciphertext_side : list ascii := snd <$> SUBSTITUTION_TABLE.

(** Decryption with its stages in the order the specification gives them:
    validation, then reverse substitution over the whole string, then [key]
    right steps.  (The stages themselves are those of the source.) *)
Definition decrypt_substitute_then_shift (str : char_ptr) (key : Z)
    : option outcome :=
  status ← validate_arg str key;
  match status, str with
  | CIPHER_SUCCESS, Some b =>
      len ← strlen b;
      b1 ← substitute_reverse b len;
      b2 ← repeat_step (Z.to_nat (key - 0)) shift_right_once b1 len;
      Some (CIPHER_SUCCESS, Some b2)
  | _, _ => Some (status, str)
  end.

(** The two stretches of an array that a rotation step of length [len]
    works on, cut out of the array: the bytes at the indices [0 .. mid] and
    those at [mid + 1 .. len - 1]. *)
Definition lower_stretch (len : Z) (str : buffer) : buffer :=
  take (Z.to_nat (midpoint len + 1)) str.
Definition upper_stretch (len : Z) (str : buffer) : buffer :=
  take (Z.to_nat len - Z.to_nat (midpoint len + 1))
       (drop (Z.to_nat (midpoint len + 1)) str).

(** Encryption with its two stages exchanged: validation, then forward
    substitution over the whole string, then [key] left steps.  (The stages
    themselves are those of the source.) *)
Definition encrypt_substitute_then_shift (str : char_ptr) (key : Z)
    : option outcome :=
  status ← validate_arg str key;
  match status, str with
  | CIPHER_SUCCESS, Some b =>
      len ← strlen b;
      b1 ← substitute_forward b len;
      b2 ← repeat_step (Z.to_nat (key - 0)) shift_left_once b1 len;
      Some (CIPHER_SUCCESS, Some b2)
  | _, _ => Some (status, str)
  end.



(** The ASCII letters, lower case and upper case, in the same order. *)
Definition lowercase_letters : list ascii :=
  list_ascii_of_string "abcdefghijklmnopqrstuvwxyz".
Definition uppercase_letters : list ascii :=
  list_ascii_of_string "ABCDEFGHIJKLMNOPQRSTUVWXYZ".

(** Every statement about one character is settled on the 256 bytes. *)
Ltac each_byte c :=
  destruct c as [[] [] [] [] [] [] [] []]; vm_compute; try done.

(** ** Running the model on the repository's own examples *)

Example readme_shift :
  shift_left_once (c_str "ABCDEF") 6 = Some (c_str "BCAEFD").
Proof. reflexivity. Qed.

Example readme_encrypt :
  cipher_encrypt (Some (c_str "ABCDEF")) 1
  = Some (CIPHER_SUCCESS, Some (c_str "4,2=10")).
Proof. reflexivity. Qed.

Example test_roundtrip_basic :
  ('(_, p) ← cipher_encrypt (Some (c_str "ABCDEF")) 3; cipher_decrypt p 3)
  = Some (CIPHER_SUCCESS, Some (c_str "ABCDEF")).
Proof. reflexivity. Qed.

Example test_roundtrip_long :
  ('(_, p) ← cipher_encrypt (Some (c_str "0123456789ABCDEF")) 5; cipher_decrypt p 5)
  = Some (CIPHER_SUCCESS, Some (c_str "0123456789ABCDEF")).
Proof. reflexivity. Qed.

Example test_to_upper :
  cipher_to_uppercase (Some (c_str "abcdef123")) = Some (Some (c_str "ABCDEF123")).
Proof. reflexivity. Qed.

Example test_roundtrip_key1 :
  ('(_, p) ← cipher_encrypt (Some (c_str "1234ABCD")) 1; cipher_decrypt p 1)
  = Some (CIPHER_SUCCESS, Some (c_str "1234ABCD")).
Proof. reflexivity. Qed.

Example test_encrypt_changes_input :
  cipher_encrypt (Some (c_str "ABCDEF")) 2
  = Some (CIPHER_SUCCESS, Some (c_str ",2410=")).
Proof. reflexivity. Qed.

Example test_null_ptr_guard :
  cipher_encrypt None 1 = Some (CIPHER_ERROR_NULL_POINTER, None) ∧
  cipher_decrypt None 1 = Some (CIPHER_ERROR_NULL_POINTER, None).
Proof. split; reflexivity. Qed.

Example test_invalid_key_guard :
  cipher_encrypt (Some (c_str "ABCD")) 0
  = Some (CIPHER_ERROR_INVALID_KEY, Some (c_str "ABCD")) ∧
  cipher_encrypt (Some (c_str "ABCD")) (-3)
  = Some (CIPHER_ERROR_INVALID_KEY, Some (c_str "ABCD")).
Proof. split; reflexivity. Qed.

(** ** Array accesses inside a known layout *)

Section accesses.
Implicit Types (pre post seg : buffer) (x y c : ascii) (j : Z).

Lemma load_middle pre x post j :
  j = Z.of_nat (length pre) → load (pre ++ x :: post) j = Some x.
Proof.
  intros ->. unfold load. rewrite decide_True by lia.
  rewrite Nat2Z.id. by apply list_lookup_middle.
Qed.

Lemma store_middle pre x post j c :
  j = Z.of_nat (length pre) →
  store (pre ++ x :: post) j c = Some (pre ++ c :: post).
Proof.
  intros ->. unfold store.
  rewrite decide_True by (rewrite length_app; simpl; lia).
  rewrite Nat2Z.id. f_equal.
  rewrite insert_app_r_alt, Nat.sub_diag by lia. done.
Qed.

Lemma snoc_middle pre x post : pre ++ x :: post = (pre ++ [x]) ++ post.
Proof. by rewrite <- (assoc_L (++)). Qed.

Lemma swap_next_adjacent pre x y post j :
  j = Z.of_nat (length pre) →
  swap_next (pre ++ x :: y :: post) j = Some (pre ++ y :: x :: post).
Proof.
  intros Hj. unfold swap_next.
  assert (Hj1 : j + 1 = Z.of_nat (length (pre ++ [x])))
    by (rewrite length_app; simpl; lia).
  rewrite (snoc_middle pre x (y :: post)), (load_middle _ y post _ Hj1).
  rewrite <- (snoc_middle pre x (y :: post)), (load_middle _ x _ _ Hj).
  simpl.
  rewrite (snoc_middle pre x (y :: post)), (store_middle _ y post _ x Hj1).
  simpl. rewrite <- (snoc_middle pre x (x :: post)).
  by apply store_middle.
Qed.

Lemma swap_prev_adjacent pre x y post j :
  j = Z.of_nat (length pre) + 1 →
  swap_prev (pre ++ x :: y :: post) j = Some (pre ++ y :: x :: post).
Proof.
  intros Hj. unfold swap_prev.
  assert (Hj1 : j - 1 = Z.of_nat (length pre)) by lia.
  assert (Hj2 : ∀ z, j = Z.of_nat (length (pre ++ [z])))
    by (intros z; rewrite length_app; simpl; lia).
  rewrite (load_middle _ x _ _ Hj1).
  rewrite (snoc_middle pre x (y :: post)), (load_middle _ y post _ (Hj2 x)).
  simpl.
  rewrite <- (snoc_middle pre x (y :: post)), (store_middle _ x _ _ y Hj1).
  simpl.
  rewrite (snoc_middle pre y (y :: post)), (store_middle _ y post _ x (Hj2 y)).
  by rewrite <- snoc_middle.
Qed.

(** An upward sweep of adjacent swaps carries the element it starts on to
    the far end of the stretch it crosses. *)
Lemma for_up_sweep seg : ∀ pre x post j,
  j = Z.of_nat (length pre) →
  for_up (length seg) j swap_next (pre ++ x :: seg ++ post)
  = Some (pre ++ seg ++ x :: post).
Proof.
  induction seg as [|y seg IH]; intros pre x post j Hj; [done|].
  simpl. rewrite swap_next_adjacent by done. simpl.
  replace (pre ++ y :: x :: seg ++ post) with ((pre ++ [y]) ++ x :: seg ++ post)
    by (by rewrite <- (assoc_L (++))).
  rewrite IH by (rewrite length_app; simpl; lia).
  by rewrite <- (assoc_L (++)).
Qed.

(** A downward sweep carries the element it starts on to the near end. *)
Lemma for_down_sweep seg : ∀ pre x post j,
  j = Z.of_nat (length pre) + Z.of_nat (length seg) →
  for_down (length seg) j swap_prev (pre ++ seg ++ x :: post)
  = Some (pre ++ x :: seg ++ post).
Proof.
  induction seg as [|y seg IH] using rev_ind; intros pre x post j Hj; [done|].
  rewrite length_app in *. simpl in *.
  replace (length seg + 1)%nat with (S (length seg)) by lia. simpl.
  replace (pre ++ (seg ++ [y]) ++ x :: post) with ((pre ++ seg) ++ y :: x :: post)
    by (by rewrite <- !(assoc_L (++))).
  rewrite swap_prev_adjacent by (rewrite length_app; lia). simpl.
  rewrite <- (assoc_L (++)).
  rewrite IH by lia.
  by rewrite <- (assoc_L (++)).
Qed.
End accesses.

(** ** Strings inside arrays *)

Lemma strlen_layout str L :
  strlen str = Some L →
  ∃ body tail, str = body ++ NUL :: tail ∧ text body ∧ L = Z.of_nat (length body).
Proof.
  revert L. induction str as [|c str IH]; intros L; simpl; [done|].
  case_decide as Hc.
  - intros [= <-]. exists [], str. subst c. split_and!; [done|constructor|done].
  - destruct (strlen str) as [L'|] eqn:E; [|done]. intros [= <-].
    destruct (IH L' eq_refl) as (body & tail & -> & Hbody & ->).
    exists (c :: body), tail. split_and!; [done|by constructor|].
    simpl. lia.
Qed.

Lemma strlen_text body tail :
  text body → strlen (body ++ NUL :: tail) = Some (Z.of_nat (length body)).
Proof.
  induction 1 as [|c body Hc _ IH]; [done|].
  cbn [app strlen length]. rewrite decide_False by done.
  rewrite IH. simpl. f_equal. lia.
Qed.

(** ** The rotations as list functions *)

Section rotations.
Implicit Types (l a b : buffer) (x : ascii).

Lemma rotate_right_snoc l x : rotate_right (l ++ [x]) = x :: l.
Proof. unfold rotate_right. rewrite rev_unit. by rewrite rev_involutive. Qed.

Lemma length_rotate_left l : length (rotate_left l) = length l.
Proof. destruct l; simpl; [done|]. rewrite length_app. simpl. lia. Qed.

Lemma length_rotate_right l : length (rotate_right l) = length l.
Proof.
  destruct l as [|x l] using rev_ind; [done|].
  rewrite rotate_right_snoc, length_app. simpl. lia.
Qed.

Lemma rotate_right_left l : rotate_right (rotate_left l) = l.
Proof. destruct l; [done|]. simpl. apply rotate_right_snoc. Qed.

Lemma rotate_left_right l : rotate_left (rotate_right l) = l.
Proof. destruct l as [|x l] using rev_ind; [done|]. by rewrite rotate_right_snoc. Qed.

Lemma length_iter_rotate_left n l : length (Nat.iter n rotate_left l) = length l.
Proof. induction n; simpl; [done|]. by rewrite length_rotate_left. Qed.

Lemma length_iter_rotate_right n l : length (Nat.iter n rotate_right l) = length l.
Proof. induction n; simpl; [done|]. by rewrite length_rotate_right. Qed.

(** Rotating by the length of a prefix moves that prefix to the back. *)
Lemma iter_rotate_left_app a : ∀ b,
  Nat.iter (length a) rotate_left (a ++ b) = b ++ a.
Proof.
  induction a as [|x a IH]; intros b; simpl length.
  - by rewrite app_nil_r.
  - rewrite Nat.iter_succ_r. simpl.
    rewrite <- (assoc_L (++)), IH. by rewrite <- (assoc_L (++)).
Qed.

Lemma iter_rotate_left_full l : Nat.iter (length l) rotate_left l = l.
Proof.
  rewrite <- (app_nil_r l) at 2. rewrite iter_rotate_left_app. done.
Qed.

Lemma iter_rotate_right_left n l :
  Nat.iter n rotate_right (Nat.iter n rotate_left l) = l.
Proof.
  revert l. induction n as [|n IH]; intros l; [done|].
  rewrite Nat.iter_succ_r. simpl. rewrite rotate_right_left. apply IH.
Qed.

Lemma rotate_left_fmap (f : ascii → ascii) l :
  rotate_left (f <$> l) = f <$> rotate_left l.
Proof. destruct l; simpl; [done|]. by rewrite fmap_app. Qed.

Lemma iter_rotate_left_fmap (f : ascii → ascii) n l :
  Nat.iter n rotate_left (f <$> l) = f <$> Nat.iter n rotate_left l.
Proof. induction n; simpl; [done|]. by rewrite IHn, rotate_left_fmap. Qed.
End rotations.

(** ** What one rotation step does *)

Section steps.
Implicit Types (body rest : buffer) (len : Z).

Lemma midpoint_bounds len :
  1 ≤ len → 0 ≤ midpoint len ∧ 2 * midpoint len ≤ len - 1 ∧ len - 2 ≤ 2 * midpoint len.
Proof.
  intros Hlen. unfold midpoint. Z.to_euclidean_division_equations. lia.
Qed.

Lemma halves_split body :
  body ≠ [] →
  let k := Z.to_nat (midpoint (Z.of_nat (length body)) + 1) in
  halves (Z.of_nat (length body)) (take k body) (drop k body).
Proof.
  intros Hne k. subst k.
  assert (1 ≤ Z.of_nat (length body)) as Hlen by (destruct body; simpl in *; [done|lia]).
  pose proof (midpoint_bounds _ Hlen). unfold halves.
  rewrite length_take, length_drop. lia.
Qed.

Lemma halves_length len s1 s2 :
  halves len s1 s2 → Z.of_nat (length (s1 ++ s2)) = len.
Proof. intros (? & ? & ?). rewrite length_app. lia. Qed.

Lemma halves_same_length len s1 s2 t1 t2 :
  halves len s1 s2 → length t1 = length s1 → length t2 = length s2 →
  halves len t1 t2.
Proof. unfold halves. intros (? & ? & ?) -> ->. done. Qed.

(** The left step rotates the stretch [0 .. mid] and the stretch
    [mid + 1 .. len - 1], each by one place to the left; the character at
    [mid] belongs to the first stretch and moves with it. *)
Lemma shift_left_once_halves len s1 s2 rest :
  halves len s1 s2 →
  shift_left_once (s1 ++ s2 ++ rest) len
  = Some (rotate_left s1 ++ rotate_left s2 ++ rest).
Proof.
  intros (Hlen & H1 & H2). pose proof (midpoint_bounds _ Hlen) as Hmid.
  unfold shift_left_once.
  destruct s1 as [|x seg]; simpl in H1; [lia|].
  replace (Z.to_nat (midpoint len - 0)) with (length seg) by lia.
  change ((x :: seg) ++ s2 ++ rest) with ([] ++ x :: seg ++ s2 ++ rest).
  rewrite (for_up_sweep seg [] x (s2 ++ rest) 0) by done. simpl.
  destruct s2 as [|y seg2]; simpl in H2.
  - replace (Z.to_nat (len - 1 - (midpoint len + 1))) with O by lia.
    simpl. by rewrite <- (assoc_L (++)).
  - replace (Z.to_nat (len - 1 - (midpoint len + 1))) with (length seg2) by lia.
    rewrite (snoc_middle seg x).
    rewrite (for_up_sweep seg2 (seg ++ [x]) y rest).
    + simpl. by rewrite <- !(assoc_L (++)).
    + rewrite length_app. simpl. lia.
Qed.

(** On an empty string the left step does nothing. *)
Lemma shift_left_once_empty rest : shift_left_once rest 0 = Some rest.
Proof. done. Qed.

(** From length 2 on, the right step rotates the same two stretches by one
    place to the right. *)
Lemma shift_right_once_halves len s1 s2 rest :
  halves len s1 s2 → 2 ≤ len →
  shift_right_once (s1 ++ s2 ++ rest) len
  = Some (rotate_right s1 ++ rotate_right s2 ++ rest).
Proof.
  intros (Hlen & H1 & H2) Hlen2. pose proof (midpoint_bounds _ Hlen) as Hmid.
  unfold shift_right_once.
  destruct s1 as [|m s1 _] using rev_ind; simpl in H1; [lia|].
  destruct s2 as [|z s2 _] using rev_ind; simpl in H2; [lia|].
  rewrite !length_app in *. simpl in *.
  rewrite !rotate_right_snoc.
  replace (Z.to_nat (len - 1 - midpoint len)) with (length (m :: s2))
    by (simpl; lia).
  replace ((s1 ++ [m]) ++ (s2 ++ [z]) ++ rest)
    with (s1 ++ (m :: s2) ++ z :: rest)
    by (by rewrite <- !(assoc_L (++))).
  rewrite (for_down_sweep (m :: s2) s1 z rest) by (simpl; lia). simpl.
  replace (Z.to_nat (midpoint len + 1 - 0)) with (length (s1 ++ [z]))
    by (rewrite length_app; simpl; lia).
  replace (s1 ++ z :: m :: s2 ++ rest)
    with ([] ++ (s1 ++ [z]) ++ m :: s2 ++ rest)
    by (by rewrite <- !(assoc_L (++))).
  rewrite (for_down_sweep (s1 ++ [z]) [] m (s2 ++ rest))
    by (rewrite length_app; simpl; lia).
  simpl. by rewrite <- !(assoc_L (++)).
Qed.

Lemma repeat_shift_left n : ∀ len s1 s2 rest,
  halves len s1 s2 →
  repeat_step n shift_left_once (s1 ++ s2 ++ rest) len
  = Some (Nat.iter n rotate_left s1 ++ Nat.iter n rotate_left s2 ++ rest).
Proof.
  induction n as [|n IH]; intros len s1 s2 rest Hh; [done|].
  cbn [repeat_step]. rewrite shift_left_once_halves by done. simpl.
  rewrite IH by (eapply halves_same_length; eauto using length_rotate_left).
  by rewrite <- !Nat.iter_succ_r.
Qed.

Lemma repeat_shift_right n : ∀ len s1 s2 rest,
  halves len s1 s2 → 2 ≤ len →
  repeat_step n shift_right_once (s1 ++ s2 ++ rest) len
  = Some (Nat.iter n rotate_right s1 ++ Nat.iter n rotate_right s2 ++ rest).
Proof.
  induction n as [|n IH]; intros len s1 s2 rest Hh Hlen; [done|].
  cbn [repeat_step]. rewrite shift_right_once_halves by done. simpl.
  rewrite IH by (done || eapply halves_same_length; eauto using length_rotate_right).
  by rewrite <- !Nat.iter_succ_r.
Qed.

Lemma repeat_shift_left_empty n rest :
  repeat_step n shift_left_once rest 0 = Some rest.
Proof. induction n; [done|]. cbn [repeat_step]. by rewrite shift_left_once_empty. Qed.
End steps.

(** ** The substitution table, character by character *)

Section characters.
Implicit Types (c : ascii).

Lemma reverse_forward_char c : reverse_char (forward_char c) = c.
Proof. each_byte c. Qed.

Lemma forward_reverse_char c : forward_char (reverse_char c) = c.
Proof. each_byte c. Qed.

Lemma forward_char_not_NUL c : c ≠ NUL → forward_char c ≠ NUL.
Proof. each_byte c. Qed.

Lemma reverse_char_not_NUL c : c ≠ NUL → reverse_char c ≠ NUL.
Proof. each_byte c. Qed.

Lemma text_forward body : text body → text (forward_char <$> body).
Proof.
  unfold text. rewrite Forall_fmap. intros Ht.
  eapply Forall_impl; [exact Ht|]. intros c. apply forward_char_not_NUL.
Qed.

Lemma text_reverse body : text body → text (reverse_char <$> body).
Proof.
  unfold text. rewrite Forall_fmap. intros Ht.
  eapply Forall_impl; [exact Ht|]. intros c. apply reverse_char_not_NUL.
Qed.

Lemma fmap_reverse_forward (body : buffer) :
  reverse_char <$> (forward_char <$> body) = body.
Proof.
  rewrite <- list_fmap_compose. rewrite <- (list_fmap_id body) at 2.
  apply list_fmap_ext. intros _ c _. apply reverse_forward_char.
Qed.

Lemma fmap_forward_reverse (body : buffer) :
  forward_char <$> (reverse_char <$> body) = body.
Proof.
  rewrite <- list_fmap_compose. rewrite <- (list_fmap_id body) at 2.
  apply list_fmap_ext. intros _ c _. apply forward_reverse_char.
Qed.
End characters.

(** ** What the substitution loop does *)

Section substitution.
Variables from to : ascii * ascii → ascii.
Implicit Types (pre body post tail : buffer) (i : Z).

Local Abbreviation f := (table_scan from to SUBSTITUTION_TABLE).

(** The inner loop replaces the character at [i] by its scan. *)
Lemma substitute_at_middle rows pre c post i :
  i = Z.of_nat (length pre) →
  substitute_at from to rows (pre ++ c :: post) i
  = Some (pre ++ table_scan from to rows c :: post).
Proof.
  intros Hi. induction rows as [|row rows IH]; [done|].
  cbn [substitute_at table_scan]. rewrite load_middle by done. simpl.
  destruct (decide (from row = c)); [by apply store_middle|done].
Qed.

(** [n] characters of text from index [i] on are all replaced. *)
Lemma substitute_loop_text body : ∀ pre post i,
  text body → i = Z.of_nat (length pre) →
  substitute_loop from to (length body) i (pre ++ body ++ post)
  = Some (pre ++ (f <$> body) ++ post).
Proof.
  induction body as [|c body IH]; intros pre post i Ht Hi; [done|].
  apply Forall_cons in Ht as [Hc Ht]. cbn [length substitute_loop app].
  rewrite load_middle by done. cbn [mbind option_bind].
  rewrite decide_False by done.
  rewrite substitute_at_middle by done. cbn [mbind option_bind].
  rewrite (snoc_middle pre (f c)), IH; [|done|rewrite length_app; simpl; lia].
  by rewrite <- snoc_middle.
Qed.

(** The loop stops at the terminator, however large its bound. *)
Lemma substitute_loop_stop body : ∀ n pre tail i,
  text body → i = Z.of_nat (length pre) → (length body ≤ n)%nat →
  substitute_loop from to n i (pre ++ body ++ NUL :: tail)
  = Some (pre ++ (f <$> body) ++ NUL :: tail).
Proof.
  induction body as [|c body IH]; intros n pre tail i Ht Hi Hn.
  - destruct n as [|n]; [done|]. cbn [substitute_loop app].
    by rewrite load_middle by done.
  - apply Forall_cons in Ht as [Hc Ht].
    destruct n as [|n]; simpl in Hn; [lia|]. cbn [substitute_loop app].
    rewrite load_middle by done. cbn [mbind option_bind].
    rewrite decide_False by done.
    rewrite substitute_at_middle by done. cbn [mbind option_bind].
    rewrite (snoc_middle pre (f c)), IH;
      [|done|rewrite length_app; simpl; lia|lia].
    by rewrite <- snoc_middle.
Qed.

(** On a terminated string every bound is fine: the first
    [min n (strlen str)] characters are replaced. *)
Lemma substitute_loop_string n body tail :
  text body →
  substitute_loop from to n 0 (body ++ NUL :: tail)
  = Some ((f <$> take n body) ++ drop n body ++ NUL :: tail).
Proof.
  intros Ht. destruct (decide (length body ≤ n)%nat) as [Hn|Hn].
  - rewrite take_ge, drop_ge by done.
    by apply (substitute_loop_stop body n [] tail 0).
  - rewrite <- (take_drop n body) at 1. rewrite <- (assoc_L (++)).
    assert (n = length (take n body)) as Hlen by (rewrite length_take; lia).
    rewrite Hlen at 1.
    apply (substitute_loop_text (take n body) [] _ 0); [|done].
    by apply Forall_take.
Qed.

(** A whole string goes through the substitution loop. *)
Lemma substitute_whole body tail len :
  text body → len = Z.of_nat (length body) →
  substitute_loop from to (Z.to_nat (len - 0)) 0 (body ++ NUL :: tail)
  = Some ((f <$> body) ++ NUL :: tail).
Proof.
  intros Ht ->. rewrite substitute_loop_string by done.
  rewrite take_ge, drop_ge by lia. done.
Qed.
End substitution.

(** ** What the public operations do on a valid string *)

Section pipeline.
Implicit Types (body tail : buffer) (len key : Z).

Lemma text_app a b : text (a ++ b) ↔ text a ∧ text b.
Proof. apply Forall_app. Qed.

Lemma text_rotate_left body : text body → text (rotate_left body).
Proof.
  destruct body as [|c body]; [done|]. simpl.
  intros [Hc Ht]%Forall_cons. apply text_app. split; [done|].
  by constructor.
Qed.

Lemma text_rotate_right body : text body → text (rotate_right body).
Proof.
  destruct body as [|c body _] using rev_ind; [done|].
  rewrite rotate_right_snoc. intros [Ht Hc]%text_app.
  change (text ([c] ++ body)). by apply text_app.
Qed.

Lemma text_iter_rotate_left n body : text body → text (Nat.iter n rotate_left body).
Proof. intros Ht. induction n; simpl; [done|]. by apply text_rotate_left. Qed.

Lemma text_iter_rotate_right n body : text body → text (Nat.iter n rotate_right body).
Proof. intros Ht. induction n; simpl; [done|]. by apply text_rotate_right. Qed.

Lemma validate_arg_string body tail key :
  text body → 1 ≤ key → Z.of_nat (length body) ≤ CIPHER_MAX_INPUT_LEN →
  validate_arg (Some (body ++ NUL :: tail)) key = Some CIPHER_SUCCESS.
Proof.
  intros Ht Hkey Hlen. unfold validate_arg.
  rewrite decide_False by lia. rewrite strlen_text by done. simpl.
  by rewrite decide_False by lia.
Qed.

Lemma cipher_encrypt_halves len s1 s2 tail key :
  halves len s1 s2 → text s1 → text s2 →
  len ≤ CIPHER_MAX_INPUT_LEN → 1 ≤ key →
  cipher_encrypt (Some (s1 ++ s2 ++ NUL :: tail)) key
  = Some (CIPHER_SUCCESS,
          Some ((forward_char <$> Nat.iter (Z.to_nat key) rotate_left s1)
                ++ (forward_char <$> Nat.iter (Z.to_nat key) rotate_left s2)
                ++ NUL :: tail)).
Proof.
  intros Hh Ht1 Ht2 Hlen Hkey. pose proof (halves_length _ _ _ Hh) as HL.
  unfold cipher_encrypt. rewrite (assoc_L (++)).
  rewrite validate_arg_string by (by apply text_app || lia). simpl.
  rewrite strlen_text by (by apply text_app). rewrite HL. simpl.
  rewrite <- (assoc_L (++)), Z.sub_0_r.
  rewrite repeat_shift_left by done. simpl.
  unfold substitute_forward. rewrite (assoc_L (++)).
  rewrite substitute_whole.
  - by rewrite fmap_app, <- (assoc_L (++)).
  - apply text_app. split; by apply text_iter_rotate_left.
  - rewrite length_app, !length_iter_rotate_left, <- length_app. lia.
Qed.

Lemma cipher_encrypt_empty tail key :
  1 ≤ key →
  cipher_encrypt (Some (NUL :: tail)) key
  = Some (CIPHER_SUCCESS, Some (NUL :: tail)).
Proof.
  intros Hkey. unfold cipher_encrypt.
  assert (validate_arg (Some (NUL :: tail)) key = Some CIPHER_SUCCESS) as ->
    by (apply (validate_arg_string [] tail key); done || constructor).
  simpl. by rewrite repeat_shift_left_empty.
Qed.

Lemma cipher_decrypt_halves len s1 s2 tail key :
  halves len s1 s2 → 2 ≤ len → text s1 → text s2 →
  len ≤ CIPHER_MAX_INPUT_LEN → 1 ≤ key →
  cipher_decrypt (Some (s1 ++ s2 ++ NUL :: tail)) key
  = Some (CIPHER_SUCCESS,
          Some ((reverse_char <$> Nat.iter (Z.to_nat key) rotate_right s1)
                ++ (reverse_char <$> Nat.iter (Z.to_nat key) rotate_right s2)
                ++ NUL :: tail)).
Proof.
  intros Hh Hlen2 Ht1 Ht2 Hlen Hkey. pose proof (halves_length _ _ _ Hh) as HL.
  unfold cipher_decrypt. rewrite (assoc_L (++)).
  rewrite validate_arg_string by (by apply text_app || lia). simpl.
  rewrite strlen_text by (by apply text_app). rewrite HL. simpl.
  rewrite <- (assoc_L (++)), Z.sub_0_r.
  rewrite repeat_shift_right by done. simpl.
  unfold substitute_reverse. rewrite (assoc_L (++)).
  rewrite substitute_whole.
  - by rewrite fmap_app, <- (assoc_L (++)).
  - apply text_app. split; by apply text_iter_rotate_right.
  - rewrite length_app, !length_iter_rotate_right, <- length_app. lia.
Qed.

(** Every string of at least one character splits into its two halves. *)
Lemma string_halves str L :
  strlen str = Some L → 1 ≤ L →
  ∃ s1 s2 tail,
    str = s1 ++ s2 ++ NUL :: tail ∧ halves L s1 s2 ∧ text s1 ∧ text s2.
Proof.
  intros (body & tail & -> & Ht & ->)%strlen_layout HL.
  assert (body ≠ []) as Hne by (intros ->; simpl in HL; lia).
  pose proof (halves_split body Hne) as Hh. simpl in Hh.
  set (k := Z.to_nat (midpoint (Z.of_nat (length body)) + 1)) in *.
  exists (take k body), (drop k body), tail. split_and!; [|done|..].
  - by rewrite (assoc_L (++)), take_drop.
  - by apply Forall_take.
  - by apply Forall_drop.
Qed.
End pipeline.

(** ** Round trip *)

Section round_trip.
Implicit Types (l : buffer) (f : ascii → ascii).

Lemma rotate_right_fmap f l : rotate_right (f <$> l) = f <$> rotate_right l.
Proof.
  destruct l as [|x l _] using rev_ind; [done|].
  rewrite fmap_app. change (f <$> [x]) with [f x].
  by rewrite !rotate_right_snoc.
Qed.

Lemma iter_rotate_right_fmap f n l :
  Nat.iter n rotate_right (f <$> l) = f <$> Nat.iter n rotate_right l.
Proof. induction n; simpl; [done|]. by rewrite IHn, rotate_right_fmap. Qed.

(** For every string of two characters or more, decrypting what encrypt
    produced, with the same key, gives the array back byte for byte. *)
Lemma roundtrip_from_two_characters (str : buffer) (key L : Z) :
  strlen str = Some L → 2 ≤ L ≤ CIPHER_MAX_INPUT_LEN → 1 ≤ key →
  ∃ enc,
    cipher_encrypt (Some str) key = Some (CIPHER_SUCCESS, Some enc) ∧
    cipher_decrypt (Some enc) key = Some (CIPHER_SUCCESS, Some str).
Proof.
  intros Hstr [HL2 HL] Hkey.
  destruct (string_halves str L Hstr) as (s1 & s2 & tail & -> & Hh & Ht1 & Ht2);
    [lia|].
  eexists. split; [by apply (cipher_encrypt_halves L)|].
  rewrite (cipher_decrypt_halves L); try done.
  - rewrite !iter_rotate_right_fmap, !iter_rotate_right_left.
    by rewrite !fmap_reverse_forward.
  - eapply halves_same_length; [done|..];
      by rewrite length_fmap, length_iter_rotate_left.
  - by apply text_forward, text_iter_rotate_left.
  - by apply text_forward, text_iter_rotate_left.
Qed.

(** An empty string in an array with room behind the terminator: encrypt
    leaves it alone, decrypt then swaps the terminator with the byte
    behind it, once per key step. *)
Example roundtrip_empty_string :
  cipher_encrypt (Some [NUL; "X"%char]) 1
  = Some (CIPHER_SUCCESS, Some [NUL; "X"%char]) ∧
  cipher_decrypt (Some [NUL; "X"%char]) 1
  = Some (CIPHER_SUCCESS, Some ["X"%char; NUL]).
Proof. done. Qed.
End round_trip.

(** C1, at its failing input.  The one-character string ["A"] (the array
    ['A', '\0']) with key 1: [cipher_encrypt] succeeds and leaves ["2"];
    [cipher_decrypt] with the same key succeeds as well, but its right step
    swaps the character with the terminator, so the array ends as
    ['\0', '2'], the empty string, and not ["A"]: the round trip is broken for
    strings of length 1 with an odd key. *)
Theorem roundtrip_one_character :
  cipher_encrypt (Some (c_str "A")) 1 = Some (CIPHER_SUCCESS, Some (c_str "2")) ∧
  cipher_decrypt (Some (c_str "2")) 1
  = Some (CIPHER_SUCCESS, Some [NUL; "2"%char]) ∧
  [NUL; "2"%char] ≠ c_str "A".
Proof. done. Qed.

(** ** One rotation step, index by index *)

(** C2, at its failing input.  On ["ABCDEF"] (length 6, midpoint index 2) the
    left step gives ["BCAEFD"] and the right step ["CABFDE"]: the character at
    the midpoint index is not left in place, it is rotated together with the
    indices below it; the stretches the steps rotate are [0 .. mid] and
    [mid + 1 .. len - 1]. *)
Theorem rotation_step_moves_midpoint :
  midpoint 6 = 2 ∧
  load (c_str "ABCDEF") 2 = Some "C"%char ∧
  shift_left_once (c_str "ABCDEF") 6 = Some (c_str "BCAEFD") ∧
  load (c_str "BCAEFD") 2 = Some "A"%char ∧
  shift_right_once (c_str "ABCDEF") 6 = Some (c_str "CABFDE") ∧
  load (c_str "CABFDE") 2 = Some "B"%char.
Proof. done. Qed.

(** ** Short strings *)

Section short_strings.
Implicit Types (str : buffer) (L : Z).

(** The left step leaves strings of length 0, 1 and 2 as they are. *)
Lemma shift_left_once_short str L :
  strlen str = Some L → L ≤ 2 → shift_left_once str L = Some str.
Proof.
  intros Hstr HL. destruct (decide (L = 0)) as [->|HL0]; [done|].
  assert (1 ≤ L) as HL1.
  { apply strlen_layout in Hstr as (? & ? & _ & _ & ->). lia. }
  destruct (string_halves str L Hstr HL1) as (s1 & s2 & tail & -> & Hh & _).
  rewrite shift_left_once_halves by done.
  destruct Hh as (_ & H1 & H2). pose proof (midpoint_bounds L HL1).
  destruct s1 as [|a [|??]]; simpl in H1; try lia.
  destruct s2 as [|b [|??]]; simpl in H2; try lia; done.
Qed.

(** The right step leaves strings of length 2 as they are. *)
Lemma shift_right_once_two str :
  strlen str = Some 2 → shift_right_once str 2 = Some str.
Proof.
  intros Hstr.
  destruct (string_halves str 2 Hstr) as (s1 & s2 & tail & -> & Hh & _); [lia|].
  rewrite shift_right_once_halves by (done || lia).
  destruct Hh as (_ & H1 & H2). change (midpoint 2) with 0 in *.
  destruct s1 as [|a [|??]]; simpl in H1; try lia.
  destruct s2 as [|b [|??]]; simpl in H2; try lia; done.
Qed.

(** On lengths 0 and 1 the right step exchanges [str[0]] and [str[1]],
    whatever they are. *)
Lemma shift_right_once_below_two (x y : ascii) (rest : buffer) L :
  0 ≤ L ≤ 1 → shift_right_once (x :: y :: rest) L = Some (y :: x :: rest).
Proof.
  intros HL.
  assert (shift_right_once (x :: y :: rest) L
          = swap_prev ([] ++ x :: y :: rest) 1 ≫= Some) as ->
    by (assert (L = 0 ∨ L = 1) as [-> | ->] by lia; done).
  by rewrite swap_prev_adjacent.
Qed.

(** In an array of one byte, which can only hold the empty string, that
    exchange leaves the array. *)
Lemma shift_right_once_one_byte : shift_right_once [NUL] 0 = None.
Proof. done. Qed.
End short_strings.

(** C3, at its failing input.  On the one-character string ["A"] the right
    step is not a no-op: its second loop runs once with [j = 1] and swaps the
    character with the terminator, leaving the array ['\0', 'A'].  (The left
    step is a no-op on lengths 0, 1 and 2 and the right step on length 2:
    [shift_left_once_short], [shift_right_once_two].) *)
Theorem shift_right_once_one_character :
  strlen (c_str "A") = Some 1 ∧
  shift_left_once (c_str "A") 1 = Some (c_str "A") ∧
  shift_right_once (c_str "A") 1 = Some [NUL; "A"%char] ∧
  strlen [NUL; "A"%char] = Some 0.
Proof. done. Qed.

(** ** Decryption of strings shorter than two characters *)

Section below_two.
Implicit Types (x y c : ascii) (rest tail : buffer) (L key : Z).

Lemma repeat_shift_right_below_two n : ∀ x y rest L,
  0 ≤ L ≤ 1 →
  repeat_step n shift_right_once (x :: y :: rest) L
  = Some (if Nat.even n then x :: y :: rest else y :: x :: rest).
Proof.
  induction n as [|n IH]; intros x y rest L HL; [done|].
  cbn [repeat_step]. rewrite shift_right_once_below_two by done.
  cbn [mbind option_bind].
  rewrite IH by done. rewrite Nat.even_succ, <- Nat.negb_even.
  by destruct (Nat.even n).
Qed.

Lemma cipher_decrypt_empty y rest key :
  1 ≤ key →
  cipher_decrypt (Some (NUL :: y :: rest)) key
  = Some (CIPHER_SUCCESS,
          Some (if Nat.even (Z.to_nat key) then NUL :: y :: rest
                else y :: NUL :: rest)).
Proof.
  intros Hkey. unfold cipher_decrypt.
  assert (validate_arg (Some (NUL :: y :: rest)) key = Some CIPHER_SUCCESS) as ->
    by (apply (validate_arg_string [] (y :: rest) key); done || constructor).
  simpl. rewrite Z.sub_0_r, repeat_shift_right_below_two by done.
  by destruct (Nat.even _).
Qed.

Lemma substitute_one (from to : ascii * ascii → ascii) c tail :
  c ≠ NUL →
  substitute_loop from to (Z.to_nat (1 - 0)) 0 (c :: NUL :: tail)
  = Some (table_scan from to SUBSTITUTION_TABLE c :: NUL :: tail).
Proof.
  intros Hc. apply (substitute_whole from to [c] tail 1); [|done].
  by apply Forall_singleton.
Qed.

Lemma cipher_decrypt_one c tail key :
  c ≠ NUL → 1 ≤ key →
  cipher_decrypt (Some (c :: NUL :: tail)) key
  = Some (CIPHER_SUCCESS,
          Some (if Nat.even (Z.to_nat key) then reverse_char c :: NUL :: tail
                else NUL :: c :: tail)).
Proof.
  intros Hc Hkey. unfold cipher_decrypt.
  assert (validate_arg (Some (c :: NUL :: tail)) key = Some CIPHER_SUCCESS) as ->
    by (apply (validate_arg_string [c] tail key);
        [by apply Forall_singleton|done|done]).
  cbn [mbind option_bind strlen]. rewrite decide_False by done.
  cbn [strlen]. rewrite decide_True by done. cbn [fmap option_fmap option_map Z.succ Z.add mbind option_bind].
  rewrite Z.sub_0_r, repeat_shift_right_below_two by done.
  destruct (Nat.even _); cbn [mbind option_bind].
  - unfold substitute_reverse. by rewrite substitute_one.
  - done.
Qed.

Lemma decrypt_substitute_then_shift_empty y rest key :
  1 ≤ key →
  decrypt_substitute_then_shift (Some (NUL :: y :: rest)) key
  = cipher_decrypt (Some (NUL :: y :: rest)) key.
Proof.
  intros Hkey. rewrite cipher_decrypt_empty by done.
  unfold decrypt_substitute_then_shift.
  assert (validate_arg (Some (NUL :: y :: rest)) key = Some CIPHER_SUCCESS) as ->
    by (apply (validate_arg_string [] (y :: rest) key); done || constructor).
  simpl. rewrite Z.sub_0_r, repeat_shift_right_below_two by done.
  by destruct (Nat.even _).
Qed.

Lemma decrypt_substitute_then_shift_one c tail key :
  c ≠ NUL → 1 ≤ key →
  decrypt_substitute_then_shift (Some (c :: NUL :: tail)) key
  = Some (CIPHER_SUCCESS,
          Some (if Nat.even (Z.to_nat key) then reverse_char c :: NUL :: tail
                else NUL :: reverse_char c :: tail)).
Proof.
  intros Hc Hkey. unfold decrypt_substitute_then_shift.
  assert (validate_arg (Some (c :: NUL :: tail)) key = Some CIPHER_SUCCESS) as ->
    by (apply (validate_arg_string [c] tail key);
        [by apply Forall_singleton|done|done]).
  cbn [mbind option_bind strlen]. rewrite decide_False by done.
  cbn [strlen]. rewrite decide_True by done. cbn [fmap option_fmap option_map Z.succ Z.add mbind option_bind].
  unfold substitute_reverse. rewrite substitute_one by done.
  cbn [mbind option_bind].
  rewrite Z.sub_0_r, repeat_shift_right_below_two by done.
  by destruct (Nat.even _).
Qed.
End below_two.

(** ** Validation *)

Section validation.
Implicit Types (str : char_ptr) (b : buffer) (key L : Z) (st : cipher_status_t).

Lemma validate_arg_null key : validate_arg None key = Some CIPHER_ERROR_NULL_POINTER.
Proof. done. Qed.

Lemma validate_arg_key b key :
  key ≤ 0 → validate_arg (Some b) key = Some CIPHER_ERROR_INVALID_KEY.
Proof. intros Hkey. unfold validate_arg. by rewrite decide_True. Qed.

Lemma validate_arg_length b key L :
  1 ≤ key → strlen b = Some L →
  validate_arg (Some b) key
  = Some (if decide (L > CIPHER_MAX_INPUT_LEN)
          then CIPHER_ERROR_INVALID_LENGTH else CIPHER_SUCCESS).
Proof.
  intros Hkey Hstr. unfold validate_arg. rewrite decide_False by lia.
  rewrite Hstr. simpl. by destruct (decide _).
Qed.

(** A call that fails validation hands the status and the untouched array
    back. *)
Lemma cipher_encrypt_rejects str key st :
  validate_arg str key = Some st → st ≠ CIPHER_SUCCESS →
  cipher_encrypt str key = Some (st, str).
Proof.
  intros Hv Hst. unfold cipher_encrypt. rewrite Hv. simpl.
  by destruct st, str.
Qed.

Lemma cipher_decrypt_rejects str key st :
  validate_arg str key = Some st → st ≠ CIPHER_SUCCESS →
  cipher_decrypt str key = Some (st, str).
Proof.
  intros Hv Hst. unfold cipher_decrypt. rewrite Hv. simpl.
  by destruct st, str.
Qed.

(** Encryption of a valid string never leaves the array. *)
Lemma cipher_encrypt_defined b key L :
  strlen b = Some L → L ≤ CIPHER_MAX_INPUT_LEN → 1 ≤ key →
  ∃ b', cipher_encrypt (Some b) key = Some (CIPHER_SUCCESS, Some b').
Proof.
  intros Hstr HL Hkey. destruct (decide (1 ≤ L)) as [HL1|HL1].
  - destruct (string_halves b L Hstr HL1) as (s1 & s2 & tail & -> & Hh & Ht1 & Ht2).
    eexists. by apply (cipher_encrypt_halves L).
  - apply strlen_layout in Hstr as (body & tail & -> & _ & ->).
    destruct body; simpl in HL1; [|lia].
    eexists. by apply cipher_encrypt_empty.
Qed.

(** Decryption of a valid string never leaves the array either, as long
    as the array has a second byte. *)
Lemma cipher_decrypt_defined b key L :
  strlen b = Some L → L ≤ CIPHER_MAX_INPUT_LEN → 1 ≤ key →
  (2 ≤ length b)%nat →
  ∃ b', cipher_decrypt (Some b) key = Some (CIPHER_SUCCESS, Some b').
Proof.
  intros Hstr HL Hkey Hcap. destruct (decide (2 ≤ L)) as [HL2|HL2].
  - destruct (string_halves b L Hstr) as (s1 & s2 & tail & -> & Hh & Ht1 & Ht2);
      [lia|].
    eexists. by apply (cipher_decrypt_halves L).
  - apply strlen_layout in Hstr as (body & tail & -> & Ht & ->).
    destruct body as [|c [|??]]; simpl in HL2; [| |lia].
    + destruct tail as [|y rest]; simpl in Hcap; [lia|].
      eexists. by apply cipher_decrypt_empty.
    + apply Forall_cons in Ht as [Hc _].
      eexists. by apply cipher_decrypt_one.
Qed.

(** Whatever a call on a valid string returns, its status is success. *)
Lemma cipher_decrypt_status b key L (r : outcome) :
  strlen b = Some L → L ≤ CIPHER_MAX_INPUT_LEN → 1 ≤ key →
  cipher_decrypt (Some b) key = Some r → r.1 = CIPHER_SUCCESS.
Proof.
  intros Hstr HL Hkey. unfold cipher_decrypt.
  rewrite (validate_arg_length b key L), decide_False by (done || lia).
  simpl. rewrite Hstr. simpl.
  destruct (repeat_step _ _ _ _) as [b1|]; [simpl|done].
  destruct (substitute_reverse _ _) as [b2|]; [simpl|done].
  by intros [= <-].
Qed.
End validation.

(** The validation order of both operations.  A null buffer gives
    NullPointer (-1) for every key, valid or not.  A non-null buffer with a
    key of 0 or less gives InvalidKey (-2), whatever its length, and the
    string is not even measured.  With a key of 1 or more, a string of more
    than 10000 characters gives InvalidLength (-3); a string of 10000
    characters or fewer passes validation, [cipher_encrypt] returns
    Success (0), and so does [cipher_decrypt] on every array but the
    one-byte array holding the empty string; Success is the only status a
    valid call of it can return. *)
Theorem validation_precedence :
  (status_code CIPHER_SUCCESS = 0 ∧
   status_code CIPHER_ERROR_NULL_POINTER = -1 ∧
   status_code CIPHER_ERROR_INVALID_KEY = -2 ∧
   status_code CIPHER_ERROR_INVALID_LENGTH = -3) ∧
  (∀ key : Z,
     cipher_encrypt None key = Some (CIPHER_ERROR_NULL_POINTER, None) ∧
     cipher_decrypt None key = Some (CIPHER_ERROR_NULL_POINTER, None)) ∧
  (∀ (b : buffer) (key : Z), key ≤ 0 →
     cipher_encrypt (Some b) key = Some (CIPHER_ERROR_INVALID_KEY, Some b) ∧
     cipher_decrypt (Some b) key = Some (CIPHER_ERROR_INVALID_KEY, Some b)) ∧
  (∀ (b : buffer) (key L : Z), 1 ≤ key → strlen b = Some L → L > 10000 →
     cipher_encrypt (Some b) key = Some (CIPHER_ERROR_INVALID_LENGTH, Some b) ∧
     cipher_decrypt (Some b) key = Some (CIPHER_ERROR_INVALID_LENGTH, Some b)) ∧
  (∀ (b : buffer) (key L : Z), 1 ≤ key → strlen b = Some L → L ≤ 10000 →
     validate_arg (Some b) key = Some CIPHER_SUCCESS ∧
     (∃ b', cipher_encrypt (Some b) key = Some (CIPHER_SUCCESS, Some b')) ∧
     (b ≠ [NUL] →
      ∃ b', cipher_decrypt (Some b) key = Some (CIPHER_SUCCESS, Some b')) ∧
     (∀ r : outcome, cipher_decrypt (Some b) key = Some r → r.1 = CIPHER_SUCCESS)).
Proof.
  split_and!; try done.
  - intros b key Hkey. split.
    + by apply cipher_encrypt_rejects; [apply validate_arg_key|].
    + by apply cipher_decrypt_rejects; [apply validate_arg_key|].
  - intros b key L Hkey Hstr HL.
    pose proof (validate_arg_length b key L Hkey Hstr) as Hv.
    rewrite decide_True in Hv by done. split.
    + by apply cipher_encrypt_rejects.
    + by apply cipher_decrypt_rejects.
  - intros b key L Hkey Hstr HL. split_and!.
    + rewrite (validate_arg_length b key L Hkey Hstr).
      by rewrite decide_False by (unfold CIPHER_MAX_INPUT_LEN; lia).
    + by apply (cipher_encrypt_defined b key L).
    + intros Hcap. apply (cipher_decrypt_defined b key L); try done.
      destruct b as [|x [|y b]]; simpl in *; [done| |lia].
      destruct (decide (x = NUL)) as [->|]; done.
    + intros r. by apply (cipher_decrypt_status b key L).
Qed.

Lemma validation_precedence_witness :
  cipher_encrypt (Some (c_str "ABCD")) (-3)
  = Some (CIPHER_ERROR_INVALID_KEY, Some (c_str "ABCD")) ∧
  ∃ b', cipher_decrypt (Some (c_str "ABCD")) 1 = Some (CIPHER_SUCCESS, Some b').
Proof.
  destruct validation_precedence as (_ & _ & Hkey & _ & Hok). split.
  - apply (Hkey (c_str "ABCD") (-3)). lia.
  - apply (Hok (c_str "ABCD") 1 4); [lia|reflexivity|lia|discriminate].
Defined.

(** C4, at its failing input.  The one-byte array holding the empty string
    with key 1 is a valid input: it is not null, the key is positive, the
    length is 0.  [validate_arg] accepts it and [cipher_encrypt] returns
    Success; [cipher_decrypt] does not get to its [return]: the second loop
    of [shift_right_once] runs once with [j = 1] and reads [str[1]], which is
    outside the array. *)
Theorem decrypt_empty_string_one_byte :
  strlen [NUL] = Some 0 ∧
  validate_arg (Some [NUL]) 1 = Some CIPHER_SUCCESS ∧
  cipher_encrypt (Some [NUL]) 1 = Some (CIPHER_SUCCESS, Some [NUL]) ∧
  midpoint 0 = 0 ∧
  load [NUL] 1 = None ∧
  shift_right_once [NUL] 0 = None ∧
  cipher_decrypt (Some [NUL]) 1 = None.
Proof. done. Qed.

(** The length boundary: 10000 characters pass, 10001 do not. *)
Example length_boundary :
  validate_arg (Some (replicate (Z.to_nat 10000) "A"%char ++ [NUL])) 1 = Some CIPHER_SUCCESS ∧
  validate_arg (Some (replicate (Z.to_nat 10001) "A"%char ++ [NUL])) 1
  = Some CIPHER_ERROR_INVALID_LENGTH.
Proof. split; vm_compute; reflexivity. Qed.

(** C5.  Whenever [cipher_encrypt] or [cipher_decrypt] returns a status
    other than success, the array behind the pointer is, byte for byte, the
    array that was passed in. *)
Theorem failed_call_leaves_buffer (str str' : char_ptr) (key : Z)
    (st : cipher_status_t) :
  cipher_encrypt str key = Some (st, str') ∨
  cipher_decrypt str key = Some (st, str') →
  st ≠ CIPHER_SUCCESS →
  str' = str.
Proof.
  intros Hcall Hst.
  assert (∀ (step : buffer → Z → option buffer)
            (subst : buffer → Z → option buffer),
    (status ← validate_arg str key;
     match status, str with
     | CIPHER_SUCCESS, Some b =>
         len ← strlen b;
         b1 ← repeat_step (Z.to_nat (key - 0)) step b len;
         b2 ← subst b1 len;
         Some (CIPHER_SUCCESS, Some b2)
     | _, _ => Some (status, str)
     end) = Some (st, str') → str' = str) as Hboth.
  { intros step subst.
    destruct (validate_arg str key) as [status|]; [simpl|done].
    destruct status, str as [b|]; try (by intros [= <- <-]).
    destruct (strlen b); [simpl|done].
    destruct (repeat_step _ _ _ _); [simpl|done].
    destruct (subst _ _); [simpl|done].
    intros [= <- _]. done. }
  destruct Hcall as [Henc|Hdec].
  - by apply (Hboth shift_left_once substitute_forward).
  - by apply (Hboth shift_right_once substitute_reverse).
Qed.

Lemma failed_call_leaves_buffer_witness :
  cipher_encrypt (Some (c_str "ABCD")) 0
  = Some (CIPHER_ERROR_INVALID_KEY, Some (c_str "ABCD")) ∧
  Some (c_str "ABCD") = Some (c_str "ABCD").
Proof.
  split; [reflexivity|].
  apply (failed_call_leaves_buffer (Some (c_str "ABCD")) (Some (c_str "ABCD")) 0
           CIPHER_ERROR_INVALID_KEY).
  - left. reflexivity.
  - discriminate.
Defined.

(** ** The two substitutions undo each other *)

Section inverse.
Variables from to from' to' : ascii * ascii → ascii.

Local Abbreviation f := (table_scan from to SUBSTITUTION_TABLE).
Local Abbreviation g := (table_scan from' to' SUBSTITUTION_TABLE).

Hypothesis g_f : ∀ c, g (f c) = c.
Hypothesis f_text : ∀ c, c ≠ NUL → f c ≠ NUL.

Lemma fmap_cancel (l : buffer) : g <$> (f <$> l) = l.
Proof. induction l as [|c l IH]; [done|]. by rewrite !fmap_cons, g_f, IH. Qed.

Lemma substitute_loop_inverse (n : nat) (body tail : buffer) :
  text body →
  ∃ str1,
    substitute_loop from to n 0 (body ++ NUL :: tail) = Some str1 ∧
    substitute_loop from' to' n 0 str1 = Some (body ++ NUL :: tail).
Proof.
  intros Ht. eexists. split; [by apply substitute_loop_string|].
  assert (text (take n body) ∧ text (drop n body)) as [Ht1 Ht2]
    by (split; [by apply Forall_take|by apply Forall_drop]).
  assert (text (f <$> take n body)) as Ht1'.
  { unfold text. rewrite Forall_fmap.
    eapply Forall_impl; [exact Ht1|]. intros c. apply f_text. }
  rewrite (assoc_L (++)).
  rewrite substitute_loop_string by (by apply text_app).
  assert (length (f <$> take n body) ≤ n)%nat as Hlen
    by (rewrite length_fmap, length_take; lia).
  destruct (decide (n ≤ length body)%nat) as [Hn|Hn].
  - assert (length (f <$> take n body) = n) as Hlen'
      by (rewrite length_fmap, length_take; lia).
    rewrite take_app_length', drop_app_length' by done.
    by rewrite fmap_cancel, (assoc_L (++)), take_drop.
  - rewrite (drop_ge body), app_nil_r by lia.
    rewrite take_ge, drop_ge by done.
    by rewrite fmap_cancel, take_ge by lia.
Qed.
End inverse.

(** C7.  The table has 20 rows, no symbol occurs twice in its plaintext
    column and none twice in its ciphertext column; and on every terminated
    buffer, with every length bound, [substitute_reverse] undoes
    [substitute_forward] and [substitute_forward] undoes
    [substitute_reverse]: the buffer comes back unchanged. *)
Theorem substitution_is_invertible :
  (Z.of_nat (length SUBSTITUTION_TABLE) = CIPHER_TABLE_SIZE ∧
   NoDup plaintext_side ∧ NoDup ciphertext_side) ∧
  (∀ c, reverse_char (forward_char c) = c ∧ forward_char (reverse_char c) = c) ∧
  (∀ (str : buffer) (len L : Z), strlen str = Some L →
     (∃ str1, substitute_forward str len = Some str1 ∧
              substitute_reverse str1 len = Some str) ∧
     (∃ str1, substitute_reverse str len = Some str1 ∧
              substitute_forward str1 len = Some str)).
Proof.
  split_and!.
  - done.
  - apply (bool_decide_unpack _). by vm_compute.
  - apply (bool_decide_unpack _). by vm_compute.
  - intros c. split; [apply reverse_forward_char|apply forward_reverse_char].
  - intros str len L (body & tail & -> & Ht & _)%strlen_layout.
    unfold substitute_forward, substitute_reverse. split.
    + apply substitute_loop_inverse;
        [apply reverse_forward_char|apply forward_char_not_NUL|done].
    + apply substitute_loop_inverse;
        [apply forward_reverse_char|apply reverse_char_not_NUL|done].
Qed.

Lemma substitution_is_invertible_witness :
  ∃ str1, substitute_forward (c_str "0A:Z") 4 = Some str1 ∧
          substitute_reverse str1 4 = Some (c_str "0A:Z").
Proof.
  destruct substitution_is_invertible as (_ & _ & Hinv).
  apply (Hinv (c_str "0A:Z") 4 4). reflexivity.
Defined.

(** ** The order of the decryption stages *)

Lemma decrypt_substitute_then_shift_halves (len key : Z) (s1 s2 tail : buffer) :
  halves len s1 s2 → 2 ≤ len → text s1 → text s2 →
  len ≤ CIPHER_MAX_INPUT_LEN → 1 ≤ key →
  decrypt_substitute_then_shift (Some (s1 ++ s2 ++ NUL :: tail)) key
  = Some (CIPHER_SUCCESS,
          Some (Nat.iter (Z.to_nat key) rotate_right (reverse_char <$> s1)
                ++ Nat.iter (Z.to_nat key) rotate_right (reverse_char <$> s2)
                ++ NUL :: tail)).
Proof.
  intros Hh Hlen2 Ht1 Ht2 Hlen Hkey. pose proof (halves_length _ _ _ Hh) as HL.
  unfold decrypt_substitute_then_shift. rewrite (assoc_L (++)).
  rewrite validate_arg_string by (by apply text_app || lia). simpl.
  rewrite strlen_text by (by apply text_app). rewrite HL. simpl.
  unfold substitute_reverse.
  rewrite substitute_whole by (by apply text_app || lia). simpl.
  rewrite fmap_app, <- (assoc_L (++)), Z.sub_0_r.
  rewrite repeat_shift_right; [done| |done].
  eapply halves_same_length; [done|..]; by rewrite length_fmap.
Qed.

(** On every valid input (a terminated string of at most 10000 characters,
    a key of 1 or more, in an array of at least two bytes) [cipher_decrypt],
    which runs its [key] right steps first and substitutes afterwards,
    returns success and leaves the same string as reverse substitution over
    the whole string followed by [key] right steps.  From two characters on,
    and on the empty string, the two arrays are equal byte for byte. *)
Lemma decrypt_stage_order (b : buffer) (key L : Z) :
  strlen b = Some L → L ≤ CIPHER_MAX_INPUT_LEN → 1 ≤ key →
  (2 ≤ length b)%nat →
  ∃ b1 b2,
    cipher_decrypt (Some b) key = Some (CIPHER_SUCCESS, Some b1) ∧
    decrypt_substitute_then_shift (Some b) key = Some (CIPHER_SUCCESS, Some b2) ∧
    c_string b1 = c_string b2 ∧
    (L ≠ 1 → b1 = b2).
Proof.
  intros Hstr HL Hkey Hcap. destruct (decide (2 ≤ L)) as [HL2|HL2].
  - destruct (string_halves b L Hstr) as (s1 & s2 & tail & -> & Hh & Ht1 & Ht2);
      [lia|].
    do 2 eexists. split_and!.
    + by apply (cipher_decrypt_halves L).
    + by apply (decrypt_substitute_then_shift_halves L).
    + by rewrite !iter_rotate_right_fmap.
    + by rewrite !iter_rotate_right_fmap.
  - apply strlen_layout in Hstr as (body & tail & -> & Ht & ->).
    destruct body as [|c [|??]]; simpl in HL2; [| |lia]; cbn [app].
    + destruct tail as [|y rest]; simpl in Hcap; [lia|].
      do 2 eexists. split_and!.
      * by apply cipher_decrypt_empty.
      * rewrite decrypt_substitute_then_shift_empty by done.
        by apply cipher_decrypt_empty.
      * done.
      * done.
    + apply Forall_cons in Ht as [Hc _].
      pose proof (reverse_char_not_NUL c Hc) as Hrc.
      do 2 eexists. split_and!.
      * by apply cipher_decrypt_one.
      * by apply decrypt_substitute_then_shift_one.
      * destruct (Nat.even _); [done|]. simpl. done.
      * done.
Qed.

(** C8, at its failing input.  On the one-character string ["A"] with key 1
    [cipher_decrypt] leaves the array ['\0', 'A']: its right step swaps the
    character with the terminator, and its substitution loop then stops at
    once.  Reverse substitution over the whole string gives [":"], which has
    nothing to rotate; followed by the source's right step it gives
    ['\0', ':'].  Either way that is not the array [cipher_decrypt]
    leaves. *)
Theorem decrypt_stage_order_one_character :
  cipher_decrypt (Some (c_str "A")) 1
  = Some (CIPHER_SUCCESS, Some [NUL; "A"%char]) ∧
  substitute_reverse (c_str "A") 1 = Some (c_str ":") ∧
  decrypt_substitute_then_shift (Some (c_str "A")) 1
  = Some (CIPHER_SUCCESS, Some [NUL; ":"%char]) ∧
  [NUL; "A"%char] ≠ c_str ":" ∧
  [NUL; "A"%char] ≠ [NUL; ":"%char].
Proof. done. Qed.

(** ** The period of the left step *)

(** C9, at its failing input.  ["ABC"] has length 3 and half-length 1, yet
    one left step turns it into ["BAC"]: the lower loop of [shift_left_once]
    swaps [str[0]] with [str[1]], the midpoint character.  So encrypting
    with key 1 + 1 does not give what encrypting with key 1 gives. *)
Lemma period_fails_on_three_characters :
  (strlen (c_str "ABC") = Some 3 ∧ 3 `div` 2 = 1 ∧
   repeat_step (Z.to_nat (3 `div` 2)) shift_left_once (c_str "ABC") 3
   = Some (c_str "BAC") ∧
   cipher_encrypt (Some (c_str "ABC")) 1
   = Some (CIPHER_SUCCESS, Some (c_str "42,")) ∧
   cipher_encrypt (Some (c_str "ABC")) (1 + 3 `div` 2)
   = Some (CIPHER_SUCCESS, Some (c_str "24,"))) ∧
  ¬ (∀ (str : buffer) (L key : Z),
       strlen str = Some L → L ≤ CIPHER_MAX_INPUT_LEN →
       repeat_step (Z.to_nat (L `div` 2)) shift_left_once str L = Some str ∧
       (1 ≤ key →
        cipher_encrypt (Some str) (key + L `div` 2)
        = cipher_encrypt (Some str) key)).
Proof.
  split; [done|]. intros Hall.
  destruct (Hall (c_str "ABC") 3 1) as [Hback _]; [done|done|].
  vm_compute in Hback. discriminate Hback.
Qed.

(** What the source does on even lengths (and on length 1): the two
    stretches the step rotates both have [L / 2] characters, so [L / 2] left
    steps bring the buffer back, and [cipher_encrypt] with key + [L / 2]
    succeeds with the result it gives with key. *)
Theorem shift_period_even_length (str : buffer) (L key : Z) :
  strlen str = Some L → L ≤ CIPHER_MAX_INPUT_LEN →
  Z.even L = true ∨ L = 1 →
  repeat_step (Z.to_nat (L `div` 2)) shift_left_once str L = Some str ∧
  (1 ≤ key →
   cipher_encrypt (Some str) (key + L `div` 2) = cipher_encrypt (Some str) key ∧
   ∃ enc, cipher_encrypt (Some str) key = Some (CIPHER_SUCCESS, Some enc)).
Proof.
  intros Hstr HL Hpar.
  assert (0 ≤ L) as HL0
    by (apply strlen_layout in Hstr as (? & ? & _ & _ & ->); lia).
  assert ((L = 0 ∨ L = 1) ∨ (2 ≤ L ∧ Z.even L = true)) as [Hsmall|[HL2 Hev]].
  { destruct Hpar as [Hev| ->]; [|by left; right].
    destruct (decide (L = 0)) as [->|]; [by left; left|].
    destruct (decide (L = 1)) as [->|]; [done|]. right. split; [lia|done]. }
  - assert (L `div` 2 = 0) as -> by (destruct Hsmall as [-> | ->]; done).
    split; [done|]. intros Hkey. rewrite Z.add_0_r. split; [done|].
    by apply (cipher_encrypt_defined str key L).
  - destruct (string_halves str L Hstr) as (s1 & s2 & tail & -> & Hh & Ht1 & Ht2);
      [lia|].
    assert (Z.to_nat (L `div` 2) = length s1 ∧ Z.to_nat (L `div` 2) = length s2)
      as [Hs1 Hs2].
    { destruct Hh as (_ & H1 & H2). revert H1 H2. unfold midpoint.
      apply Z.even_spec in Hev as [m ->].
      Z.to_euclidean_division_equations. lia. }
    assert (Nat.iter (Z.to_nat (L `div` 2)) rotate_left s1 = s1) as E1
      by (rewrite Hs1; apply iter_rotate_left_full).
    assert (Nat.iter (Z.to_nat (L `div` 2)) rotate_left s2 = s2) as E2
      by (rewrite Hs2; apply iter_rotate_left_full).
    split.
    + rewrite (repeat_shift_left _ L) by done. by rewrite E1, E2.
    + intros Hkey. assert (0 ≤ L `div` 2) by (apply Z.div_pos; lia).
      rewrite !(cipher_encrypt_halves L) by (done || lia).
      split; [|by eexists].
      replace (Z.to_nat (key + L `div` 2))
        with (Z.to_nat key + Z.to_nat (L `div` 2))%nat by lia.
      by rewrite !Nat.iter_add, E1, E2.
Qed.

Lemma shift_period_even_length_witness :
  repeat_step (Z.to_nat (6 `div` 2)) shift_left_once (c_str "ABCDEF") 6
  = Some (c_str "ABCDEF") ∧
  (1 ≤ 2 →
   cipher_encrypt (Some (c_str "ABCDEF")) (2 + 6 `div` 2)
   = cipher_encrypt (Some (c_str "ABCDEF")) 2 ∧
   ∃ enc, cipher_encrypt (Some (c_str "ABCDEF")) 2
          = Some (CIPHER_SUCCESS, Some enc)).
Proof.
  apply (shift_period_even_length (c_str "ABCDEF") 6 2);
    [reflexivity | unfold CIPHER_MAX_INPUT_LEN; lia | left; reflexivity].
Defined.

(** ** Does encryption change the text? *)

Section fixed_points.
Implicit Types (l : buffer) (c : ascii) (n k : nat).

Lemma c_string_text body tail : text body → c_string (body ++ NUL :: tail) = body.
Proof.
  induction 1 as [|c body Hc _ IH]; [done|].
  cbn [app c_string]. rewrite decide_False by done. by rewrite IH.
Qed.

Lemma iter_rotate_left_mul l k : Nat.iter (length l * k) rotate_left l = l.
Proof.
  induction k as [|k IH]; [by rewrite Nat.mul_0_r|].
  by rewrite Nat.mul_succ_r, Nat.iter_add, iter_rotate_left_full.
Qed.




End fixed_points.


Section table_cycles.
Implicit Types (l : buffer) (c : ascii) (s k j p : nat).








End table_cycles.



(** ** The case normaliser *)

Section uppercase.
Implicit Types (c : ascii) (body tail : buffer).

Lemma toupper_not_NUL c : c ≠ NUL → toupper c ≠ NUL.
Proof. each_byte c. Qed.

Lemma toupper_letters :
  Forall2 (λ lower upper, toupper lower = upper)
    lowercase_letters uppercase_letters.
Proof. apply (bool_decide_unpack _). by vm_compute. Qed.

Lemma toupper_other c : c ∉ lowercase_letters → toupper c = c.
Proof.
  intros Hc. destruct (decide (toupper c = c)) as [|Hne]; [done|].
  exfalso. apply Hc. revert Hne. clear.
  destruct c as [[] [] [] [] [] [] [] []]; intros Hne;
    first [ apply (bool_decide_unpack _); exact I | by destruct Hne ].
Qed.

Lemma toupper_idempotent c : toupper (toupper c) = toupper c.
Proof. each_byte c. Qed.

Lemma to_uppercase_loop_string body tail :
  text body →
  to_uppercase_loop (body ++ NUL :: tail)
  = Some ((toupper <$> body) ++ NUL :: tail).
Proof.
  induction 1 as [|c body Hc _ IH]; [done|].
  cbn [app to_uppercase_loop]. rewrite decide_False by done.
  by rewrite IH.
Qed.

Lemma text_toupper body : text body → text (toupper <$> body).
Proof.
  unfold text. rewrite Forall_fmap. intros Ht.
  eapply Forall_impl; [exact Ht|]. intros c. apply toupper_not_NUL.
Qed.
End uppercase.

(** C10.  [cipher_to_uppercase] does nothing, and does not fail, on a null
    pointer.  On a terminated buffer it returns with an array of the same
    size holding a string of the same length, in which every character
    before the terminator has gone through [toupper] and every byte from
    the terminator on is as it was.  [toupper] sends each lower-case ASCII
    letter to the upper-case letter at the same place of the alphabet and
    returns every other byte (digits, punctuation, bytes above 127)
    unchanged. *)
Theorem to_uppercase_in_place :
  cipher_to_uppercase None = Some None ∧
  Forall2 (λ lower upper, toupper lower = upper)
    lowercase_letters uppercase_letters ∧
  (∀ c, c ∉ lowercase_letters → toupper c = c) ∧
  (∀ (str : buffer) (L : Z), strlen str = Some L →
     ∃ str',
       cipher_to_uppercase (Some str) = Some (Some str') ∧
       length str' = length str ∧
       strlen str' = Some L ∧
       ∀ (i : nat) (c : ascii), str !! i = Some c →
         str' !! i = Some (if decide (Z.of_nat i < L) then toupper c else c)).
Proof.
  split_and!; [done|apply toupper_letters|apply toupper_other|].
  intros str L (body & tail & -> & Ht & ->)%strlen_layout.
  exists ((toupper <$> body) ++ NUL :: tail). split_and!.
  - unfold cipher_to_uppercase. by rewrite to_uppercase_loop_string.
  - by rewrite !length_app, length_fmap.
  - rewrite strlen_text by (by apply text_toupper). by rewrite length_fmap.
  - intros i c Hi. destruct (decide (Z.of_nat i < Z.of_nat (length body))) as [Hlt|Hge].
    + rewrite lookup_app_l in Hi by lia.
      rewrite lookup_app_l by (rewrite length_fmap; lia).
      by rewrite list_lookup_fmap, Hi.
    + rewrite lookup_app_r in Hi by lia.
      rewrite lookup_app_r by (rewrite length_fmap; lia).
      by rewrite length_fmap.
Qed.

Lemma to_uppercase_in_place_witness :
  ∃ str',
    cipher_to_uppercase (Some (c_str "abcdef123")) = Some (Some str') ∧
    length str' = length (c_str "abcdef123") ∧
    strlen str' = Some 9 ∧
    ∀ (i : nat) (c : ascii), c_str "abcdef123" !! i = Some c →
      str' !! i = Some (if decide (Z.of_nat i < 9) then toupper c else c).
Proof.
  destruct to_uppercase_in_place as (_ & _ & _ & Hstr).
  apply (Hstr (c_str "abcdef123") 9). reflexivity.
Defined.

(** * Further properties of the transform engine *)

(** ** The rotation steps on any array *)

Section stretches.
Implicit Types (str : buffer) (len : Z).

(** An array of at least [len] bytes is its two stretches followed by the
    bytes from index [len] on. *)
Lemma array_stretches str len :
  1 ≤ len ≤ Z.of_nat (length str) →
  str = lower_stretch len str ++ upper_stretch len str ++ drop (Z.to_nat len) str ∧
  halves len (lower_stretch len str) (upper_stretch len str).
Proof.
  intros [Hlen Hcap]. pose proof (midpoint_bounds len Hlen) as Hmid.
  unfold lower_stretch, upper_stretch.
  set (k := Z.to_nat (midpoint len + 1)). set (n := Z.to_nat len).
  assert (k ≤ n)%nat as Hkn by lia. split.
  - symmetry.
    replace (drop n str) with (drop (n - k) (drop k str))
      by (rewrite drop_drop; f_equal; lia).
    rewrite take_drop. apply take_drop.
  - unfold halves. rewrite !length_take, length_drop. lia.
Qed.

Lemma iter_rotate_left_right n (l : buffer) :
  Nat.iter n rotate_left (Nat.iter n rotate_right l) = l.
Proof.
  revert l. induction n as [|n IH]; intros l; [done|].
  rewrite Nat.iter_succ_r. simpl. rewrite rotate_left_right. apply IH.
Qed.

Lemma rotate_left_Permutation (l : buffer) : rotate_left l ≡ₚ l.
Proof. destruct l as [|x l]; [done|]. simpl. by rewrite Permutation_app_comm. Qed.

Lemma iter_rotate_left_Permutation n (l : buffer) : Nat.iter n rotate_left l ≡ₚ l.
Proof. induction n; simpl; [done|]. by rewrite rotate_left_Permutation. Qed.

Lemma rotate_right_Permutation (l : buffer) : rotate_right l ≡ₚ l.
Proof.
  destruct l as [|x l _] using rev_ind; [done|].
  rewrite rotate_right_snoc. by rewrite Permutation_app_comm.
Qed.

Lemma iter_rotate_right_Permutation n (l : buffer) : Nat.iter n rotate_right l ≡ₚ l.
Proof. induction n; simpl; [done|]. by rewrite rotate_right_Permutation. Qed.
End stretches.

(** X1.  Whatever the array holds, as long as it has at least [len] >= 1
    bytes: one left step never leaves the array, rotates the bytes at the
    indices [0 .. mid] by one place to the left and those at
    [mid + 1 .. len - 1] by one place to the left, and leaves every byte from
    index [len] on as it was. *)
Theorem left_step_rotates_stretches (str : buffer) (len : Z) :
  1 ≤ len ≤ Z.of_nat (length str) →
  shift_left_once str len
  = Some (rotate_left (lower_stretch len str)
          ++ rotate_left (upper_stretch len str)
          ++ drop (Z.to_nat len) str).
Proof.
  intros Hlen. destruct (array_stretches str len Hlen) as [Hstr Hh].
  transitivity (shift_left_once
    (lower_stretch len str ++ upper_stretch len str ++ drop (Z.to_nat len) str) len);
    [by rewrite <- Hstr|].
  by apply shift_left_once_halves.
Qed.

Lemma left_step_rotates_stretches_witness :
  shift_left_once (c_str "ABCDEFG") 7
  = Some (rotate_left (lower_stretch 7 (c_str "ABCDEFG"))
          ++ rotate_left (upper_stretch 7 (c_str "ABCDEFG"))
          ++ drop (Z.to_nat 7) (c_str "ABCDEFG")).
Proof. apply left_step_rotates_stretches. simpl. lia. Defined.

(** X2.  From [len] = 2 on, one right step never leaves the array, rotates
    the same two stretches by one place to the right each, and leaves every
    byte from index [len] on as it was. *)
Theorem right_step_rotates_stretches (str : buffer) (len : Z) :
  2 ≤ len ≤ Z.of_nat (length str) →
  shift_right_once str len
  = Some (rotate_right (lower_stretch len str)
          ++ rotate_right (upper_stretch len str)
          ++ drop (Z.to_nat len) str).
Proof.
  intros Hlen. destruct (array_stretches str len) as [Hstr Hh]; [lia|].
  transitivity (shift_right_once
    (lower_stretch len str ++ upper_stretch len str ++ drop (Z.to_nat len) str) len);
    [by rewrite <- Hstr|].
  apply shift_right_once_halves; [done|lia].
Qed.

Lemma right_step_rotates_stretches_witness :
  shift_right_once (c_str "ABCDEFG") 7
  = Some (rotate_right (lower_stretch 7 (c_str "ABCDEFG"))
          ++ rotate_right (upper_stretch 7 (c_str "ABCDEFG"))
          ++ drop (Z.to_nat 7) (c_str "ABCDEFG")).
Proof. apply right_step_rotates_stretches. simpl. lia. Defined.

(** X3.  From [len] = 2 on the two steps undo each other, in both orders:
    a right step after a left step, and a left step after a right step,
    give the array back byte for byte. *)
Theorem steps_undo_each_other (str : buffer) (len : Z) :
  2 ≤ len ≤ Z.of_nat (length str) →
  (∃ str1, shift_left_once str len = Some str1 ∧
           shift_right_once str1 len = Some str) ∧
  (∃ str1, shift_right_once str len = Some str1 ∧
           shift_left_once str1 len = Some str).
Proof.
  intros Hlen. destruct (array_stretches str len) as [Hstr Hh]; [lia|].
  revert Hstr Hh.
  generalize (lower_stretch len str) (upper_stretch len str)
    (drop (Z.to_nat len) str).
  intros s1 s2 rest -> Hh.
  split; eexists; split.
  - by apply shift_left_once_halves.
  - rewrite shift_right_once_halves, !rotate_right_left; [done| |lia].
    eapply halves_same_length; [done|..]; apply length_rotate_left.
  - apply shift_right_once_halves; [done|lia].
  - rewrite shift_left_once_halves, !rotate_left_right; [done|].
    eapply halves_same_length; [done|..]; apply length_rotate_right.
Qed.

Lemma steps_undo_each_other_witness :
  (∃ str1, shift_left_once (c_str "ABCDEFG") 7 = Some str1 ∧
           shift_right_once str1 7 = Some (c_str "ABCDEFG")) ∧
  (∃ str1, shift_right_once (c_str "ABCDEFG") 7 = Some str1 ∧
           shift_left_once str1 7 = Some (c_str "ABCDEFG")).
Proof. apply steps_undo_each_other. simpl. lia. Defined.

(** ** What a successful call leaves in the array *)

Section layout.
Implicit Types (body tail : buffer) (f : ascii → ascii).

(** An array that holds a string: what the string functions see of it. *)
Lemma string_array body tail :
  text body →
  strlen (body ++ NUL :: tail) = Some (Z.of_nat (length body)) ∧
  c_string (body ++ NUL :: tail) = body ∧
  drop (length body) (body ++ NUL :: tail) = NUL :: tail.
Proof.
  intros Ht. split_and!.
  - by apply strlen_text.
  - by apply c_string_text.
  - by rewrite drop_app_length.
Qed.

(** Two stretches of text, each rotated some number of times and sent
    through [f], in front of the terminator. *)
Lemma rotated_layout (rot : buffer → buffer) f (s1 s2 tail : buffer) :
  (∀ l, length (rot l) = length l) → (∀ l, rot l ≡ₚ l) →
  (∀ l, text l → text (f <$> rot l)) →
  text s1 → text s2 →
  let enc := (f <$> rot s1) ++ (f <$> rot s2) ++ NUL :: tail in
  let str := s1 ++ s2 ++ NUL :: tail in
  length enc = length str ∧
  strlen enc = strlen str ∧
  drop (length (s1 ++ s2)) enc = drop (length (s1 ++ s2)) str ∧
  c_string enc ≡ₚ f <$> c_string str.
Proof.
  intros Hlen Hperm Htext Ht1 Ht2 enc str. subst enc str.
  assert (text (s1 ++ s2)) as Ht by (by apply text_app).
  assert (text ((f <$> rot s1) ++ (f <$> rot s2))) as Ht'
    by (apply text_app; split; by apply Htext).
  assert (length ((f <$> rot s1) ++ (f <$> rot s2)) = length (s1 ++ s2)) as Hl
    by (by rewrite !length_app, !length_fmap, !Hlen).
  rewrite !(assoc_L (++) _ _ (NUL :: tail)).
  destruct (string_array _ tail Ht) as (-> & -> & ->).
  rewrite <- Hl at 2.
  destruct (string_array _ tail Ht') as (-> & -> & ->).
  split_and!.
  - rewrite !length_app in *. simpl. lia.
  - by rewrite Hl.
  - done.
  - by rewrite fmap_app, !Hperm.
Qed.
End layout.

Lemma cipher_encrypt_layout (str : buffer) (key L : Z) :
  strlen str = Some L → L ≤ CIPHER_MAX_INPUT_LEN → 1 ≤ key →
  ∃ enc,
    cipher_encrypt (Some str) key = Some (CIPHER_SUCCESS, Some enc) ∧
    length enc = length str ∧
    strlen enc = Some L ∧
    drop (Z.to_nat L) enc = drop (Z.to_nat L) str ∧
    c_string enc ≡ₚ forward_char <$> c_string str.
Proof.
  intros Hstr HL Hkey. destruct (decide (1 ≤ L)) as [HL1|HL1].
  - destruct (string_halves str L Hstr HL1) as (s1 & s2 & tail & -> & Hh & Ht1 & Ht2).
    eexists. split; [by apply (cipher_encrypt_halves L)|].
    destruct (rotated_layout (Nat.iter (Z.to_nat key) rotate_left)
                forward_char s1 s2 tail) as (H1 & H2 & H3 & H4); try done.
    + apply length_iter_rotate_left.
    + apply iter_rotate_left_Permutation.
    + intros l Hl. by apply text_forward, text_iter_rotate_left.
    + apply halves_length in Hh. rewrite <- Hh, Nat2Z.id.
      split_and!; [done| |done|done]. by rewrite H2, Hstr, Hh.
  - apply strlen_layout in Hstr as (body & tail & -> & _ & ->).
    destruct body; simpl in HL1; [|lia].
    eexists. split; [by apply cipher_encrypt_empty|done].
Qed.

(** X4.  On every valid string [cipher_encrypt] succeeds without leaving
    the array, and what it leaves has the size of the array it was given,
    holds a string of the same length, is unchanged from the terminator on,
    and holds, in some order, exactly the forward substitutes of the
    characters it was given: no character is lost or doubled. *)
Theorem encrypt_keeps_layout (str : buffer) (key L : Z) :
  strlen str = Some L → L ≤ CIPHER_MAX_INPUT_LEN → 1 ≤ key →
  ∃ enc,
    cipher_encrypt (Some str) key = Some (CIPHER_SUCCESS, Some enc) ∧
    length enc = length str ∧
    strlen enc = Some L ∧
    drop (Z.to_nat L) enc = drop (Z.to_nat L) str ∧
    c_string enc ≡ₚ forward_char <$> c_string str.
Proof. apply cipher_encrypt_layout. Qed.

Lemma encrypt_keeps_layout_witness :
  ∃ enc,
    cipher_encrypt (Some (c_str "ABCDEF")) 3 = Some (CIPHER_SUCCESS, Some enc) ∧
    length enc = length (c_str "ABCDEF") ∧
    strlen enc = Some 6 ∧
    drop (Z.to_nat 6) enc = drop (Z.to_nat 6) (c_str "ABCDEF") ∧
    c_string enc ≡ₚ forward_char <$> c_string (c_str "ABCDEF").
Proof.
  apply (encrypt_keeps_layout (c_str "ABCDEF") 3 6);
    [reflexivity | unfold CIPHER_MAX_INPUT_LEN; lia | lia].
Defined.

(** X5.  On every valid string of two characters or more [cipher_decrypt]
    succeeds without leaving the array, and what it leaves has the size of
    the array it was given, holds a string of the same length, is unchanged
    from the terminator on, and holds, in some order, exactly the reverse
    substitutes of the characters it was given. *)
Theorem decrypt_keeps_layout (str : buffer) (key L : Z) :
  strlen str = Some L → 2 ≤ L ≤ CIPHER_MAX_INPUT_LEN → 1 ≤ key →
  ∃ dec,
    cipher_decrypt (Some str) key = Some (CIPHER_SUCCESS, Some dec) ∧
    length dec = length str ∧
    strlen dec = Some L ∧
    drop (Z.to_nat L) dec = drop (Z.to_nat L) str ∧
    c_string dec ≡ₚ reverse_char <$> c_string str.
Proof.
  intros Hstr [HL2 HL] Hkey.
  destruct (string_halves str L Hstr) as (s1 & s2 & tail & -> & Hh & Ht1 & Ht2);
    [lia|].
  eexists. split; [by apply (cipher_decrypt_halves L)|].
  destruct (rotated_layout (Nat.iter (Z.to_nat key) rotate_right)
              reverse_char s1 s2 tail) as (H1 & H2 & H3 & H4); try done.
  - apply length_iter_rotate_right.
  - apply iter_rotate_right_Permutation.
  - intros l Hl. by apply text_reverse, text_iter_rotate_right.
  - apply halves_length in Hh. rewrite <- Hh, Nat2Z.id.
    split_and!; [done| |done|done]. by rewrite H2, Hstr, Hh.
Qed.

Lemma decrypt_keeps_layout_witness :
  ∃ dec,
    cipher_decrypt (Some (c_str "4,2=10")) 3 = Some (CIPHER_SUCCESS, Some dec) ∧
    length dec = length (c_str "4,2=10") ∧
    strlen dec = Some 6 ∧
    drop (Z.to_nat 6) dec = drop (Z.to_nat 6) (c_str "4,2=10") ∧
    c_string dec ≡ₚ reverse_char <$> c_string (c_str "4,2=10").
Proof.
  apply (decrypt_keeps_layout (c_str "4,2=10") 3 6);
    [reflexivity | unfold CIPHER_MAX_INPUT_LEN; lia | lia].
Defined.

(** ** Encryption and decryption against each other *)

(** X6.  The round trip the other way: for every valid string of two
    characters or more and every key of 1 or more, [cipher_decrypt]
    succeeds, and [cipher_encrypt] with the same key on what it left gives
    the array back byte for byte. *)
Theorem encrypt_after_decrypt (str : buffer) (key L : Z) :
  strlen str = Some L → 2 ≤ L ≤ CIPHER_MAX_INPUT_LEN → 1 ≤ key →
  ∃ dec,
    cipher_decrypt (Some str) key = Some (CIPHER_SUCCESS, Some dec) ∧
    cipher_encrypt (Some dec) key = Some (CIPHER_SUCCESS, Some str).
Proof.
  intros Hstr [HL2 HL] Hkey.
  destruct (string_halves str L Hstr) as (s1 & s2 & tail & -> & Hh & Ht1 & Ht2);
    [lia|].
  eexists. split; [by apply (cipher_decrypt_halves L)|].
  rewrite (cipher_encrypt_halves L); try done.
  - rewrite !iter_rotate_left_fmap, !iter_rotate_left_right.
    by rewrite !fmap_forward_reverse.
  - eapply halves_same_length; [done|..];
      by rewrite length_fmap, length_iter_rotate_right.
  - by apply text_reverse, text_iter_rotate_right.
  - by apply text_reverse, text_iter_rotate_right.
Qed.

Lemma encrypt_after_decrypt_witness :
  ∃ dec,
    cipher_decrypt (Some (c_str "0123456789")) 4 = Some (CIPHER_SUCCESS, Some dec) ∧
    cipher_encrypt (Some dec) 4 = Some (CIPHER_SUCCESS, Some (c_str "0123456789")).
Proof.
  apply (encrypt_after_decrypt (c_str "0123456789") 4 10);
    [reflexivity | unfold CIPHER_MAX_INPUT_LEN; lia | lia].
Defined.

Section injectivity.
Implicit Types (l k : buffer).

Lemma forward_fmap_inj l k : forward_char <$> l = forward_char <$> k → l = k.
Proof.
  intros Heq. rewrite <- (fmap_reverse_forward l), <- (fmap_reverse_forward k).
  by rewrite Heq.
Qed.

Lemma iter_rotate_left_inj n l k :
  Nat.iter n rotate_left l = Nat.iter n rotate_left k → l = k.
Proof.
  intros Heq. rewrite <- (iter_rotate_right_left n l), <- (iter_rotate_right_left n k).
  by rewrite Heq.
Qed.
End injectivity.

(** X7.  With one key, two different valid arrays never encrypt to the same
    array: if [cipher_encrypt] leaves the same bytes for both, they were
    equal byte for byte. *)
Theorem encrypt_injective (str1 str2 enc : buffer) (key L1 L2 : Z) :
  strlen str1 = Some L1 → L1 ≤ CIPHER_MAX_INPUT_LEN →
  strlen str2 = Some L2 → L2 ≤ CIPHER_MAX_INPUT_LEN → 1 ≤ key →
  cipher_encrypt (Some str1) key = Some (CIPHER_SUCCESS, Some enc) →
  cipher_encrypt (Some str2) key = Some (CIPHER_SUCCESS, Some enc) →
  str1 = str2.
Proof.
  intros Hs1 HL1 Hs2 HL2 Hkey He1 He2.
  assert (L1 = L2) as <-.
  { destruct (cipher_encrypt_layout str1 key L1) as (e1 & He1' & _ & Hlen1 & _);
      try done.
    destruct (cipher_encrypt_layout str2 key L2) as (e2 & He2' & _ & Hlen2 & _);
      try done.
    rewrite He1 in He1'. rewrite He2 in He2'.
    injection He1' as <-. injection He2' as <-. congruence. }
  destruct (decide (1 ≤ L1)) as [Hpos|Hpos].
  - destruct (string_halves str1 L1 Hs1 Hpos) as (a1 & a2 & ta & -> & Ha & ? & ?).
    destruct (string_halves str2 L1 Hs2 Hpos) as (b1 & b2 & tb & -> & Hb & ? & ?).
    rewrite (cipher_encrypt_halves L1) in He1 by done.
    rewrite (cipher_encrypt_halves L1) in He2 by done.
    rewrite <- He2 in He1. injection He1 as Heq.
    assert (length a1 = length b1 ∧ length a2 = length b2) as [Hl1 Hl2].
    { destruct Ha as (_ & ? & ?), Hb as (_ & ? & ?). lia. }
    apply app_inj_1 in Heq as [Heq1 Heq];
      [|by rewrite !length_fmap, !length_iter_rotate_left].
    apply app_inj_1 in Heq as [Heq2 Heq];
      [|by rewrite !length_fmap, !length_iter_rotate_left].
    apply forward_fmap_inj, iter_rotate_left_inj in Heq1.
    apply forward_fmap_inj, iter_rotate_left_inj in Heq2.
    by rewrite Heq1, Heq2, Heq.
  - apply strlen_layout in Hs1 as (a & ta & -> & _ & Ha).
    apply strlen_layout in Hs2 as (b & tb & -> & _ & Hb).
    destruct a; simpl in Ha; [|lia]. destruct b; simpl in Hb; [|lia].
    cbn [app] in *.
    rewrite cipher_encrypt_empty in He1, He2 by done. congruence.
Qed.

Lemma encrypt_injective_witness :
  c_str "ABCDEF" = c_str "ABCDEF".
Proof.
  apply (encrypt_injective (c_str "ABCDEF") (c_str "ABCDEF") (c_str "4,2=10") 1 6 6);
    [reflexivity | unfold CIPHER_MAX_INPUT_LEN; lia
    | reflexivity | unfold CIPHER_MAX_INPUT_LEN; lia | lia
    | reflexivity | reflexivity].
Defined.

(** X8.  The two stages of encryption can be exchanged: on every valid
    string [cipher_encrypt], which shifts first and substitutes afterwards,
    succeeds and leaves, byte for byte, the array that forward substitution
    followed by [key] left steps leaves. *)
Theorem encrypt_stage_order (str : buffer) (key L : Z) :
  strlen str = Some L → L ≤ CIPHER_MAX_INPUT_LEN → 1 ≤ key →
  ∃ enc,
    cipher_encrypt (Some str) key = Some (CIPHER_SUCCESS, Some enc) ∧
    encrypt_substitute_then_shift (Some str) key
    = Some (CIPHER_SUCCESS, Some enc).
Proof.
  intros Hstr HL Hkey. destruct (decide (1 ≤ L)) as [HL1|HL1].
  - destruct (string_halves str L Hstr HL1) as (s1 & s2 & tail & -> & Hh & Ht1 & Ht2).
    pose proof (halves_length _ _ _ Hh) as Hlen.
    eexists. split; [by apply (cipher_encrypt_halves L)|].
    unfold encrypt_substitute_then_shift. rewrite (assoc_L (++)).
    rewrite validate_arg_string by (by apply text_app || lia). simpl.
    rewrite strlen_text by (by apply text_app). rewrite Hlen. simpl.
    unfold substitute_forward.
    rewrite substitute_whole by (by apply text_app || lia). simpl.
    rewrite fmap_app, <- (assoc_L (++)), Z.sub_0_r.
    rewrite repeat_shift_left.
    + by rewrite !iter_rotate_left_fmap.
    + eapply halves_same_length; [done|..]; by rewrite length_fmap.
  - apply strlen_layout in Hstr as (body & tail & -> & _ & ->).
    destruct body; simpl in HL1; [|lia]. cbn [app].
    eexists. split; [by apply cipher_encrypt_empty|].
    unfold encrypt_substitute_then_shift.
    assert (validate_arg (Some (NUL :: tail)) key = Some CIPHER_SUCCESS) as ->
      by (apply (validate_arg_string [] tail key); done || constructor).
    simpl. by rewrite repeat_shift_left_empty.
Qed.

Lemma encrypt_stage_order_witness :
  ∃ enc,
    cipher_encrypt (Some (c_str "ABCDEF")) 3 = Some (CIPHER_SUCCESS, Some enc) ∧
    encrypt_substitute_then_shift (Some (c_str "ABCDEF")) 3
    = Some (CIPHER_SUCCESS, Some enc).
Proof.
  apply (encrypt_stage_order (c_str "ABCDEF") 3 6);
    [reflexivity | unfold CIPHER_MAX_INPUT_LEN; lia | lia].
Defined.

(** ** Short strings, and the keys that act alike *)

Section short_and_periodic.
Implicit Types (l : buffer) (key : Z).

Lemma iter_rotate_left_short n l : (length l ≤ 1)%nat → Nat.iter n rotate_left l = l.
Proof.
  intros Hl. induction n as [|n IH]; [done|]. simpl. rewrite IH.
  by destruct l as [|? [|??]]; simpl in *; [..|lia].
Qed.

Lemma even_to_nat key : 0 ≤ key → Nat.even (Z.to_nat key) = Z.even key.
Proof.
  intros Hkey. apply eq_true_iff_eq.
  rewrite Nat.even_spec, Z.even_spec. split; intros [m Hm].
  - exists (Z.of_nat m). lia.
  - exists (Z.to_nat m). lia.
Qed.

Lemma cipher_decrypt_one_byte key : 1 ≤ key → cipher_decrypt (Some [NUL]) key = None.
Proof.
  intros Hkey. unfold cipher_decrypt.
  assert (validate_arg (Some [NUL]) key = Some CIPHER_SUCCESS) as ->
    by (apply (validate_arg_string [] [] key); done || constructor).
  cbn [mbind option_bind strlen]. rewrite decide_True by done.
  cbn [mbind option_bind]. rewrite Z.sub_0_r.
  destruct (Z.to_nat key) as [|n] eqn:Hn; [lia|]. done.
Qed.
End short_and_periodic.

(** X9.  On a valid string of at most two characters the shift stage has
    nothing to move, for any key: [cipher_encrypt] succeeds and leaves the
    forward substitute of each character in its place, followed by the
    terminator and the rest of the array as they were. *)
Theorem encrypt_short_string (str : buffer) (key L : Z) :
  strlen str = Some L → L ≤ 2 → 1 ≤ key →
  cipher_encrypt (Some str) key
  = Some (CIPHER_SUCCESS,
          Some ((forward_char <$> c_string str) ++ drop (Z.to_nat L) str)).
Proof.
  intros Hstr HL Hkey. destruct (decide (1 ≤ L)) as [HL1|HL1].
  - destruct (string_halves str L Hstr HL1) as (s1 & s2 & tail & -> & Hh & Ht1 & Ht2).
    rewrite (cipher_encrypt_halves L) by (done || unfold CIPHER_MAX_INPUT_LEN; lia).
    pose proof (halves_length _ _ _ Hh) as Hlen.
    destruct Hh as (_ & H1 & H2). pose proof (midpoint_bounds L HL1).
    rewrite !iter_rotate_left_short by lia.
    rewrite (assoc_L (++) s1 s2), c_string_text by (by apply text_app).
    rewrite <- Hlen, Nat2Z.id, drop_app_length.
    by rewrite fmap_app, <- (assoc_L (++)).
  - apply strlen_layout in Hstr as (body & tail & -> & _ & ->).
    destruct body; simpl in HL1; [|lia]. by apply cipher_encrypt_empty.
Qed.

Lemma encrypt_short_string_witness :
  cipher_encrypt (Some (c_str "A7")) 5
  = Some (CIPHER_SUCCESS,
          Some ((forward_char <$> c_string (c_str "A7"))
                ++ drop (Z.to_nat 2) (c_str "A7"))).
Proof. apply (encrypt_short_string (c_str "A7") 5 2); [reflexivity|lia|lia]. Defined.

(** X10.  What [cipher_decrypt] does below two characters, for every key of
    1 or more.  On the empty string it exchanges the terminator with the
    byte behind it once per key step, so with an odd key the array begins
    with that byte; in a one-byte array, which has no such byte, it leaves
    the array.  On a one-character string it exchanges the character with
    the terminator once per key step: with an even key the character is
    substituted in place, with an odd key the array begins with the
    terminator and the character is behind it, not substituted. *)
Theorem decrypt_below_two_characters (key : Z) :
  1 ≤ key →
  cipher_decrypt (Some [NUL]) key = None ∧
  (∀ (y : ascii) (rest : buffer),
     cipher_decrypt (Some (NUL :: y :: rest)) key
     = Some (CIPHER_SUCCESS,
             Some (if Z.even key then NUL :: y :: rest else y :: NUL :: rest))) ∧
  (∀ (c : ascii) (tail : buffer), c ≠ NUL →
     cipher_decrypt (Some (c :: NUL :: tail)) key
     = Some (CIPHER_SUCCESS,
             Some (if Z.even key then reverse_char c :: NUL :: tail
                   else NUL :: c :: tail))).
Proof.
  intros Hkey. rewrite <- (even_to_nat key) by lia. split_and!.
  - by apply cipher_decrypt_one_byte.
  - intros y rest. by apply cipher_decrypt_empty.
  - intros c tail Hc. by apply cipher_decrypt_one.
Qed.

Lemma decrypt_below_two_characters_witness :
  cipher_decrypt (Some [NUL]) 3 = None ∧
  (∀ (y : ascii) (rest : buffer),
     cipher_decrypt (Some (NUL :: y :: rest)) 3
     = Some (CIPHER_SUCCESS,
             Some (if Z.even 3 then NUL :: y :: rest else y :: NUL :: rest))) ∧
  (∀ (c : ascii) (tail : buffer), c ≠ NUL →
     cipher_decrypt (Some (c :: NUL :: tail)) 3
     = Some (CIPHER_SUCCESS,
             Some (if Z.even 3 then reverse_char c :: NUL :: tail
                   else NUL :: c :: tail))).
Proof. apply (decrypt_below_two_characters 3). lia. Defined.

(** X11.  Keys that differ by the product of the sizes of the two stretches
    encrypt alike: for every valid string of [L] >= 1 characters and every
    key of 1 or more, [cipher_encrypt] with key + (mid + 1) * (L - 1 - mid)
    succeeds with the result it gives with key.  (Each stretch is back in
    its original order after as many steps as it has characters.) *)
Theorem encrypt_key_period (str : buffer) (key L : Z) :
  strlen str = Some L → 1 ≤ L ≤ CIPHER_MAX_INPUT_LEN → 1 ≤ key →
  ∃ enc,
    cipher_encrypt (Some str) key = Some (CIPHER_SUCCESS, Some enc) ∧
    cipher_encrypt (Some str) (key + (midpoint L + 1) * (L - 1 - midpoint L))
    = Some (CIPHER_SUCCESS, Some enc).
Proof.
  intros Hstr [HL1 HL] Hkey.
  destruct (string_halves str L Hstr HL1) as (s1 & s2 & tail & -> & Hh & Ht1 & Ht2).
  eexists. split; [by apply (cipher_encrypt_halves L)|].
  destruct (Hh) as (_ & H1 & H2). pose proof (midpoint_bounds L HL1).
  rewrite (cipher_encrypt_halves L) by (done || nia).
  replace (Z.to_nat (key + (midpoint L + 1) * (L - 1 - midpoint L)))
    with (Z.to_nat key + length s1 * length s2)%nat by nia.
  rewrite !Nat.iter_add, iter_rotate_left_mul.
  by rewrite (Nat.mul_comm (length s1)), iter_rotate_left_mul.
Qed.

Lemma encrypt_key_period_witness :
  ∃ enc,
    cipher_encrypt (Some (c_str "ABCDEFG")) 2 = Some (CIPHER_SUCCESS, Some enc) ∧
    cipher_encrypt (Some (c_str "ABCDEFG")) (2 + (midpoint 7 + 1) * (7 - 1 - midpoint 7))
    = Some (CIPHER_SUCCESS, Some enc).
Proof.
  apply (encrypt_key_period (c_str "ABCDEFG") 2 7);
    [reflexivity | unfold CIPHER_MAX_INPUT_LEN; lia | lia].
Defined.

(** ** The substitution stage on its own *)

Section alphabet.
Implicit Types (c : ascii).

Lemma table_or_unchanged c :
  c ∈ plaintext_side ∨ (forward_char c = c ∧ reverse_char c = c).
Proof.
  destruct c as [[] [] [] [] [] [] [] []];
    first [ left; apply (bool_decide_unpack _); exact I
          | right; split; reflexivity ].
Qed.

Lemma same_alphabet c : c ∈ ciphertext_side ↔ c ∈ plaintext_side.
Proof.
  destruct c as [[] [] [] [] [] [] [] []];
    apply (bool_decide_unpack _); exact I.
Qed.

Lemma forward_char_alphabet c : forward_char c ∈ plaintext_side ↔ c ∈ plaintext_side.
Proof.
  destruct c as [[] [] [] [] [] [] [] []];
    apply (bool_decide_unpack _); exact I.
Qed.

Lemma drop_string n (body tail : buffer) :
  drop n body ++ NUL :: tail = drop (n `min` length body) (body ++ NUL :: tail).
Proof.
  destruct (decide (n ≤ length body)%nat) as [Hn|Hn].
  - rewrite Nat.min_l by done. by rewrite drop_app_le.
  - rewrite Nat.min_r by lia. rewrite drop_app_length, drop_ge by lia. done.
Qed.
End alphabet.

(** X12.  The table as a mapping.  Each row's plaintext symbol goes forward
    to its ciphertext symbol and the ciphertext symbol goes back to it;
    every character outside the plaintext column passes through both
    substitutions unchanged; the two columns hold the same 20 symbols, so a
    character is in the table's alphabet exactly if its substitute is. *)
Theorem substitution_alphabet :
  Forall (λ row : ascii * ascii,
            forward_char row.1 = row.2 ∧ reverse_char row.2 = row.1)
    SUBSTITUTION_TABLE ∧
  (∀ c, c ∉ plaintext_side → forward_char c = c ∧ reverse_char c = c) ∧
  (∀ c, c ∈ ciphertext_side ↔ c ∈ plaintext_side) ∧
  (∀ c, forward_char c ∈ plaintext_side ↔ c ∈ plaintext_side).
Proof.
  split_and!.
  - apply (bool_decide_unpack _). by vm_compute.
  - intros c Hc. by destruct (table_or_unchanged c).
  - apply same_alphabet.
  - apply forward_char_alphabet.
Qed.

Lemma substitution_alphabet_witness :
  forward_char "Z" = "Z"%char ∧ reverse_char "Z" = "Z"%char.
Proof.
  destruct substitution_alphabet as (_ & Hpass & _).
  apply (Hpass "Z"%char). apply (bool_decide_unpack _). exact I.
Defined.

(** X13.  The substitution functions respect both their length bound and
    the terminator: on a terminated array, whatever [len] is, they replace
    the first [len] characters of the string (all of them if it has fewer,
    none if [len] is 0 or negative) by their substitutes and leave every
    later byte, the terminator included, as it was. *)
Theorem substitution_respects_bound (str : buffer) (len L : Z) :
  strlen str = Some L →
  substitute_forward str len
  = Some ((forward_char <$> take (Z.to_nat len) (c_string str))
          ++ drop (Z.to_nat len `min` Z.to_nat L) str) ∧
  substitute_reverse str len
  = Some ((reverse_char <$> take (Z.to_nat len) (c_string str))
          ++ drop (Z.to_nat len `min` Z.to_nat L) str).
Proof.
  intros (body & tail & -> & Ht & ->)%strlen_layout.
  unfold substitute_forward, substitute_reverse.
  rewrite Z.sub_0_r, Nat2Z.id, c_string_text, <- drop_string by done.
  split; by apply substitute_loop_string.
Qed.

Lemma substitution_respects_bound_witness :
  substitute_forward (c_str "ABCDEF") 2
  = Some ((forward_char <$> take (Z.to_nat 2) (c_string (c_str "ABCDEF")))
          ++ drop (Z.to_nat 2 `min` Z.to_nat 6) (c_str "ABCDEF")) ∧
  substitute_reverse (c_str "ABCDEF") 2
  = Some ((reverse_char <$> take (Z.to_nat 2) (c_string (c_str "ABCDEF")))
          ++ drop (Z.to_nat 2 `min` Z.to_nat 6) (c_str "ABCDEF")).
Proof. apply (substitution_respects_bound (c_str "ABCDEF") 2 6). reflexivity. Defined.

(** ** The case normaliser, again *)

Section normaliser.
Implicit Types (body tail : buffer).

Lemma fmap_toupper_idempotent body : toupper <$> (toupper <$> body) = toupper <$> body.
Proof.
  induction body as [|c body IH]; [done|].
  by rewrite !fmap_cons, toupper_idempotent, IH.
Qed.

Lemma fmap_toupper_unchanged body :
  Forall (λ c, c ∉ lowercase_letters) body → toupper <$> body = body.
Proof.
  induction 1 as [|c body Hc _ IH]; [done|].
  by rewrite fmap_cons, toupper_other, IH.
Qed.

Lemma table_not_lowercase c : c ∈ plaintext_side → c ∉ lowercase_letters.
Proof.
  destruct c as [[] [] [] [] [] [] [] []]; intros Hc;
    first [ apply (bool_decide_unpack _); exact I
          | exfalso; revert Hc; apply (bool_decide_unpack _); exact I ].
Qed.
End normaliser.

(** X14.  Normalising twice is normalising once: on every terminated array
    [cipher_to_uppercase] returns, and a second call on what it left changes
    nothing. *)
Theorem to_uppercase_idempotent (str : buffer) (L : Z) :
  strlen str = Some L →
  ∃ up,
    cipher_to_uppercase (Some str) = Some (Some up) ∧
    cipher_to_uppercase (Some up) = Some (Some up).
Proof.
  intros (body & tail & -> & Ht & _)%strlen_layout.
  unfold cipher_to_uppercase. eexists. split.
  - by rewrite to_uppercase_loop_string.
  - rewrite to_uppercase_loop_string by (by apply text_toupper).
    by rewrite fmap_toupper_idempotent.
Qed.

Lemma to_uppercase_idempotent_witness :
  ∃ up,
    cipher_to_uppercase (Some (c_str "a1b2:c3")) = Some (Some up) ∧
    cipher_to_uppercase (Some up) = Some (Some up).
Proof. apply (to_uppercase_idempotent (c_str "a1b2:c3") 7). reflexivity. Defined.

(** X15.  A string without lower-case ASCII letters is left exactly as it
    is by [cipher_to_uppercase]; in particular every string over the
    substitution table's alphabet is, so normalising a payload that is
    already in the cipher's alphabet never changes it. *)
Theorem to_uppercase_leaves_normalised (str : buffer) (L : Z) :
  strlen str = Some L →
  (Forall (λ c, c ∉ lowercase_letters) (c_string str) →
   cipher_to_uppercase (Some str) = Some (Some str)) ∧
  (Forall (λ c, c ∈ plaintext_side) (c_string str) →
   cipher_to_uppercase (Some str) = Some (Some str)).
Proof.
  intros (body & tail & -> & Ht & _)%strlen_layout.
  rewrite c_string_text by done.
  assert (Forall (λ c, c ∉ lowercase_letters) body →
          cipher_to_uppercase (Some (body ++ NUL :: tail))
          = Some (Some (body ++ NUL :: tail))) as Hno.
  { intros Hbody. unfold cipher_to_uppercase.
    rewrite to_uppercase_loop_string by done.
    by rewrite fmap_toupper_unchanged. }
  split; [done|]. intros Hbody. apply Hno.
  eapply Forall_impl; [exact Hbody|]. intros c. apply table_not_lowercase.
Qed.

Lemma to_uppercase_leaves_normalised_witness :
  cipher_to_uppercase (Some (c_str "0A:F=;")) = Some (Some (c_str "0A:F=;")).
Proof.
  destruct (to_uppercase_leaves_normalised (c_str "0A:F=;") 6) as [_ Htable];
    [reflexivity|].
  apply Htable. apply (bool_decide_unpack _). exact I.
Defined.

(** ** The bytes behind the terminator *)

Lemma text_halves (body : buffer) :
  text body → body ≠ [] →
  ∃ s1 s2, body = s1 ++ s2 ∧ halves (Z.of_nat (length body)) s1 s2 ∧
           text s1 ∧ text s2.
Proof.
  intros Ht Hne. pose proof (halves_split body Hne) as Hh. simpl in Hh.
  set (k := Z.to_nat (midpoint (Z.of_nat (length body)) + 1)) in *.
  exists (take k body), (drop k body). split_and!; [|done|..].
  - by rewrite take_drop.
  - by apply Forall_take.
  - by apply Forall_drop.
Qed.

(** X16.  What a call makes of a string does not depend on the bytes the
    array holds behind the terminator, nor on how many there are: the same
    string in two arrays encrypts to the same string, each array keeping
    its own bytes from the terminator on; and from two characters on the
    same holds for decryption. *)
Theorem result_independent_of_tail (body tail1 tail2 : buffer) (key : Z) :
  text body → Z.of_nat (length body) ≤ CIPHER_MAX_INPUT_LEN → 1 ≤ key →
  (∃ enc,
     cipher_encrypt (Some (body ++ NUL :: tail1)) key
     = Some (CIPHER_SUCCESS, Some (enc ++ NUL :: tail1)) ∧
     cipher_encrypt (Some (body ++ NUL :: tail2)) key
     = Some (CIPHER_SUCCESS, Some (enc ++ NUL :: tail2))) ∧
  ((2 ≤ length body)%nat →
   ∃ dec,
     cipher_decrypt (Some (body ++ NUL :: tail1)) key
     = Some (CIPHER_SUCCESS, Some (dec ++ NUL :: tail1)) ∧
     cipher_decrypt (Some (body ++ NUL :: tail2)) key
     = Some (CIPHER_SUCCESS, Some (dec ++ NUL :: tail2))).
Proof.
  intros Ht HL Hkey. destruct (decide (body = [])) as [->|Hne].
  - split; [|simpl; lia]. exists []. cbn [app].
    by rewrite !cipher_encrypt_empty.
  - destruct (text_halves body Ht Hne) as (s1 & s2 & -> & Hh & Ht1 & Ht2).
    rewrite <- !(assoc_L (++)). split.
    + eexists.
      rewrite !(cipher_encrypt_halves (Z.of_nat (length (s1 ++ s2)))) by done.
      by rewrite !(assoc_L (++) _ _ (NUL :: _)).
    + intros Hlen. eexists.
      rewrite !(cipher_decrypt_halves (Z.of_nat (length (s1 ++ s2))))
        by (done || lia).
      by rewrite !(assoc_L (++) _ _ (NUL :: _)).
Qed.

Lemma result_independent_of_tail_witness :
  (∃ enc,
     cipher_encrypt (Some (list_ascii_of_string "ABCDEF" ++ NUL :: [])) 3
     = Some (CIPHER_SUCCESS, Some (enc ++ NUL :: [])) ∧
     cipher_encrypt (Some (list_ascii_of_string "ABCDEF" ++ NUL :: c_str "xyz")) 3
     = Some (CIPHER_SUCCESS, Some (enc ++ NUL :: c_str "xyz"))) ∧
  ((2 ≤ length (list_ascii_of_string "ABCDEF"))%nat →
   ∃ dec,
     cipher_decrypt (Some (list_ascii_of_string "ABCDEF" ++ NUL :: [])) 3
     = Some (CIPHER_SUCCESS, Some (dec ++ NUL :: [])) ∧
     cipher_decrypt (Some (list_ascii_of_string "ABCDEF" ++ NUL :: c_str "xyz")) 3
     = Some (CIPHER_SUCCESS, Some (dec ++ NUL :: c_str "xyz"))).
Proof.
  apply (result_independent_of_tail (list_ascii_of_string "ABCDEF") [] (c_str "xyz") 3).
  - apply (bool_decide_unpack _). exact I.
  - unfold CIPHER_MAX_INPUT_LEN. simpl. lia.
  - lia.
Defined.
